(** * cloudmonkey: command dispatch, upload orchestration and spinner control

    A shallow embedding of the Go sources

    - [cmd/api.go]           (the catch-all API handler, [src/unnamed/part_002]),
    - [cmd/fileupload.go]    (two revisions: [src/unnamed/part_000] and
                              [src/unnamed/part_001]),
    - [config/spinner.go]    (the spinner controller),
    - [cmd/switch.go]        (the [switch] command),

    followed by the properties established about them.

    Go strings are byte sequences and are modelled by [string].  The library
    functions of package [strings] are modelled on ASCII input: a byte above
    127 is neither a letter nor white space here.  API names, argument
    tokens and the literals of the program are ASCII.  A [float64] is an
    IEEE 754 binary64 number, modelled by [spec_float] with 53 bits of
    precision, and its operations round to nearest, ties to even. *)

From Stdlib Require Import ZArith Lia Ascii String SpecFloat.
From stdpp Require Import base tactics option list strings gmap pretty.

Local Open Scope Z_scope.

(** ** Package [strings] *)

Module strings.

Fixpoint replicate_byte (c : ascii) (n : nat) : string :=
  match n with
  | O => ""
  | S n' => String c (replicate_byte c n')
  end.

(** [strings.Repeat] of a one-byte string; it panics ([None]) on a
    negative count. *)
Definition Repeat (c : ascii) (count : Z) : option string :=
  if count <? 0 then None else Some (replicate_byte c (Z.to_nat count)).

Definition is_upper (c : ascii) : bool :=
  let n := nat_of_ascii c in (65 <=? n)%nat && (n <=? 90)%nat.

Definition lower_byte (c : ascii) : ascii :=
  if is_upper c then ascii_of_nat (nat_of_ascii c + 32) else c.

(** [strings.ToLower]. *)
Fixpoint ToLower (s : string) : string :=
  match s with
  | "" => ""
  | String c s' => String (lower_byte c) (ToLower s')
  end.

(** [strings.HasPrefix s prefix]. *)
Fixpoint HasPrefix (s prefix : string) {struct prefix} : bool :=
  match prefix, s with
  | "", _ => true
  | String _ _, "" => false
  | String p prefix', String c s' =>
      if Ascii.eqb c p then HasPrefix s' prefix' else false
  end.

(** [strings.HasSuffix s suffix]. *)
Definition HasSuffix (s suffix : string) : bool :=
  HasPrefix (String.rev s) (String.rev suffix).

(** [strings.Contains s substr]. *)
Fixpoint Contains (s substr : string) : bool :=
  HasPrefix s substr ||
  match s with
  | "" => false
  | String _ s' => Contains s' substr
  end.

(** [strings.ReplaceAll s old new] for a one-byte [old]. *)
Fixpoint ReplaceAll (s : string) (old : ascii) (new : string) : string :=
  match s with
  | "" => ""
  | String c s' =>
      if Ascii.eqb c old then new +:+ ReplaceAll s' old new
      else String c (ReplaceAll s' old new)
  end.

(** [strings.Join]. *)
Fixpoint Join (elems : list string) (sep : string) : string :=
  match elems with
  | [] => ""
  | [e] => e
  | e :: rest => e +:+ sep +:+ Join rest sep
  end.

(** [strings.Split s sep] for a one-byte [sep]: the pieces between
    separators, empty pieces included. *)
Fixpoint Split (s : string) (sep : ascii) : list string :=
  match s with
  | "" => [""]
  | String c s' =>
      if Ascii.eqb c sep then "" :: Split s' sep
      else match Split s' sep with
           | [] => [String c ""]
           | piece :: pieces => String c piece :: pieces
           end
  end.

(** [strings.FieldsFunc s f]: the maximal runs of bytes not satisfying
    [f]; [cur] is the field being scanned, if one has been entered. *)
Fixpoint fields_from (f : ascii -> bool) (s : string) (cur : option string)
  : list string :=
  match s with
  | "" => match cur with Some fld => [fld] | None => [] end
  | String c s' =>
      if f c then
        match cur with
        | Some fld => fld :: fields_from f s' None
        | None => fields_from f s' None
        end
      else
        fields_from f s' (Some (default "" cur +:+ String c ""))
  end.

Definition FieldsFunc (s : string) (f : ascii -> bool) : list string :=
  fields_from f s None.

(** ASCII white space: tab, line feed, vertical tab, form feed, carriage
    return and space. *)
Definition is_space (c : ascii) : bool :=
  let n := nat_of_ascii c in
  ((9 <=? n)%nat && (n <=? 13)%nat) || (n =? 32)%nat.

Fixpoint TrimLeft (s : string) : string :=
  match s with
  | "" => ""
  | String c s' => if is_space c then TrimLeft s' else s
  end.

Fixpoint TrimRight (s : string) : string :=
  match s with
  | "" => ""
  | String c s' =>
      match TrimRight s' with
      | "" => if is_space c then "" else String c ""
      | t => String c t
      end
  end.

(** [strings.TrimSpace]. *)
Definition TrimSpace (s : string) : string := TrimRight (TrimLeft s).

Fixpoint trim_left_byte (s : string) (c : ascii) : string :=
  match s with
  | "" => ""
  | String b s' => if Ascii.eqb b c then trim_left_byte s' c else s
  end.

Fixpoint trim_right_byte (s : string) (c : ascii) : string :=
  match s with
  | "" => ""
  | String b s' =>
      match trim_right_byte s' c with
      | "" => if Ascii.eqb b c then "" else String b ""
      | t => String b t
      end
  end.

(** [strings.Trim s cutset] for a one-byte [cutset]. *)
Definition Trim (s : string) (cutset : ascii) : string :=
  trim_right_byte (trim_left_byte s cutset) cutset.

End strings.

(** [filepath.Base] with [/] as the separator. *)
Module filepath.

Fixpoint strip_trailing_slashes (s : string) : string :=
  match s with
  | "" => ""
  | String c s' =>
      match strip_trailing_slashes s' with
      | "" => if Ascii.eqb c "/" then "" else String c ""
      | t => String c t
      end
  end.

Fixpoint last_element (s : string) : string :=
  match s with
  | "" => ""
  | String c s' =>
      if strings.Contains s' "/" then last_element s'
      else if Ascii.eqb c "/" then s' else s
  end.

Definition Base (path : string) : string :=
  match path with
  | "" => "."
  | _ =>
      match strip_trailing_slashes path with
      | "" => "/"
      | p => last_element p
      end
  end.

End filepath.

(** Values held in an [interface{}] after JSON decoding. *)
#[local] Set Warnings "-register-all".
Inductive iface : Type :=
| INil
| IBool (b : bool)
| INumber (n : Z)
| IString (s : string)
| ISlice (l : list iface)
| IMap (m : gmap string iface).

(** [reflect.Kind] of the values above. *)
Inductive Kind : Type := KBool | KFloat64 | KString | KSlice | KMap.

Module reflect.

(** [reflect.TypeOf(v)], observed through its [Kind]: [TypeOf] of a nil
    interface value is the nil [Type], written [None]. *)
Definition TypeOf (v : iface) : option Kind :=
  match v with
  | INil => None
  | IBool _ => Some KBool
  | INumber _ => Some KFloat64
  | IString _ => Some KString
  | ISlice _ => Some KSlice
  | IMap _ => Some KMap
  end.

Definition is_Map (k : Kind) : bool :=
  match k with KMap => true | _ => false end.

End reflect.

(** The comma-ok assertion [v.(string)] with the flag discarded: the
    string held by [v], or the empty string. *)
Definition as_string (v : option iface) : string :=
  match v with
  | Some (IString s) => s
  | _ => ""
  end.

Definition tab : string := String (ascii_of_nat 9) "".
Definition nl : string := String (ascii_of_nat 10) "".

(** ** [config/spinner.go] *)

Module config.

(** The state of a [spinner.Spinner] that the program reads and writes. *)
Record Spinner : Type := mkSpinner {
  Suffix : string;
  active : bool;
}.

(** A [*spinner.Spinner] is the index of a spinner object in the store;
    [None] is the nil pointer. *)
Definition handle : Type := option nat.

Record Config : Type := mkConfig {
  HasShell : bool;
  store : list Spinner;
  activeSpinners : list handle;
}.

(** Methods of [spinner.Spinner], on a terminal. *)
Definition Active (st : list Spinner) (l : nat) : bool :=
  match st !! l with
  | Some s => active s
  | None => false
  end.

Definition Stop (l : nat) (st : list Spinner) : list Spinner :=
  alter (fun s => mkSpinner (Suffix s) false) l st.

Definition Start (l : nat) (st : list Spinner) : list Spinner :=
  alter (fun s => mkSpinner (Suffix s) true) l st.

Definition setSuffix (l : nat) (suffix : string) (st : list Spinner)
  : list Spinner :=
  alter (fun s => mkSpinner suffix (active s)) l st.

Definition with_store (c : Config) (st : list Spinner) : Config :=
  mkConfig (HasShell c) st (activeSpinners c).

Definition StartSpinner (c : Config) (suffix : string) : handle * Config :=
  if negb (HasShell c) then (None, c)
  else
    let waiter := length (store c) in
    (Some waiter,
     mkConfig (HasShell c)
              (store c ++ [mkSpinner (" " +:+ suffix) true])
              (activeSpinners c ++ [Some waiter])).

(** The loop of [StopSpinner]: drop the first entry equal to [waiter]. *)
Fixpoint remove_first (waiter : handle) (l : list handle) : list handle :=
  match l with
  | [] => []
  | s :: rest =>
      if bool_decide (s = waiter) then rest
      else s :: remove_first waiter rest
  end.

Definition StopSpinner (c : Config) (waiter : handle) : Config :=
  match waiter with
  | None => c
  | Some l =>
      mkConfig (HasShell c) (Stop l (store c))
               (remove_first waiter (activeSpinners c))
  end.

Definition pause_one (st : list Spinner) (s : handle) : list Spinner :=
  match s with
  | Some l => if Active st l then Stop l st else st
  | None => st
  end.

Definition PauseActiveSpinners (c : Config) : nat * Config :=
  let count := length (activeSpinners c) in
  (count, with_store c (foldl pause_one (store c) (activeSpinners c))).

Definition resume_one (st : list Spinner) (s : handle) : list Spinner :=
  match s with
  | Some l => if negb (Active st l) then Start l st else st
  | None => st
  end.

Definition ResumePausedSpinners (c : Config) : Config :=
  with_store c (foldl resume_one (store c) (activeSpinners c)).

End config.

(** ** The type [float64] *)

Module float64.

(** [float64(x)] of an integer: the nearest number. *)
Definition of_int (x : Z) : spec_float := binary_normalize 53 1024 x 0 false.

Definition mul (x y : spec_float) : spec_float := SFmul 53 1024 x y.
Definition div (x y : spec_float) : spec_float := SFdiv 53 1024 x y.

(** [int(f)]: the fraction is dropped.  The language leaves the result
    open where the value does not fit an [int] (64 bits here) or is not a
    number: [None]. *)
Definition to_int (f : spec_float) : option Z :=
  match f with
  | S754_zero _ => Some 0
  | S754_finite s m e =>
      let magnitude :=
        if 0 <=? e then Z.shiftl (Zpos m) e else Z.shiftr (Zpos m) (- e) in
      let value := if s then - magnitude else magnitude in
      if (- 2 ^ 63 <=? value) && (value <? 2 ^ 63) then Some value else None
  | _ => None
  end.

End float64.

(** An [int64] after an addition: the sum, wrapped around. *)
Definition int64 (x : Z) : Z := (x + 2 ^ 63) mod 2 ^ 64 - 2 ^ 63.

(** Package [fmt]: what [fmt.Scanln(&s)] stores in a string variable that
    holds the empty string, given the input that waits to be read.  Blanks
    in front are skipped; a line that ends before a token leaves the
    variable as it is; otherwise the text up to the next blank or the end
    of the line is stored.  What follows the first token is not stored, and
    the callers do not look at the error that says so.  Blanks are the
    ASCII ones. *)
Module fmt.

Fixpoint token (s : string) : string :=
  match s with
  | "" => ""
  | String c s' => if strings.is_space c then "" else String c (token s')
  end.

Fixpoint Scanln (input : string) : string :=
  match input with
  | "" => ""
  | String c rest =>
      if Ascii.eqb c "010" then ""
      else if strings.is_space c then Scanln rest
      else token input
  end.

End fmt.

(** ** [cmd/fileupload.go], current revision ([src/unnamed/part_001]) *)

Module fileupload.

Definition uploadingMessage : string := "Uploading files, please wait...".
Definition progressCharCount : Z := 24.

(** What [os.Stat] answers for a path: no error, the error of a path one
    of whose directories or whose last element is not there (ENOENT), the
    error of a path that leads through something that is not a directory
    (ENOTDIR), or another error.  [os.IsNotExist] recognises the first
    error only. *)
Inductive stat_result : Type := StatOk | ErrNotExist | ErrNotDir | ErrOther.

(** What happens to one call of [uploadFile] once the file has been asked
    for: an error returned before the request is sent (lines 175-213: of
    [os.Open], of [Stat] on the open file, of creating, writing or seeking
    the temporary file that holds the body, or of [http.NewRequest]), an
    error of [client.Do], or a reply with its status and body.  The steps
    on the temporary file are not events of their own. *)
Inductive transfer : Type :=
| LocalFailure (err : string)
| TransportFailure (err : string)
| Replied (StatusCode : Z) (body : string).

(** The surroundings of the program: the file system, what is typed at
    the prompt (the input that waits on standard input when [fmt.Scanln]
    reads), the network, and [config.IsFileUploadAPI], which is declared
    outside the files at hand. *)
Record Env : Type := mkEnv {
  os_Stat : string -> stat_result;
  typed : string;
  IsFileUploadAPI : string -> bool;
  transferOf : nat -> nat -> string -> string -> string -> string -> string
               -> transfer;
}.

(** What happens to the calls of the upload function of another revision
    of the flow, by the number of the call in its batch and the arguments
    of the call. *)
Definition answers : Type :=
  nat -> string -> string -> string -> string -> string -> transfer.

(** What the program does to its surroundings, in order. *)
Inductive event : Type :=
| Stdout (text : string)
| Stat (path : string)
| Open (path : string)
| Post (postURL fileName signature expires metadata : string).

Record World : Type := mkWorld {
  cfg : config.Config;
  trace : list event;
}.

Definition emit (e : event) (w : World) : World :=
  mkWorld (cfg w) (trace w ++ [e]).

Definition on_store (f : list config.Spinner -> list config.Spinner)
  (w : World) : World :=
  mkWorld (config.with_store (cfg w) (f (config.store (cfg w)))) (trace w).

(** A function either returns or panics. *)
Inductive outcome : Type :=
| Returned (w : World)
| Panicked (w : World).

(** [fmt]'s rendering of a [[]string] operand. *)
Definition show_strings (l : list string) : string :=
  "[" +:+ strings.Join l " " +:+ "]".

(** The loop of [ValidateAndGetFileList] (lines 47-57). *)
Fixpoint validate_loop (env : Env) (filePathsList : list string)
  (missingFiles validFiles : list string) (w : World)
  : list string * list string * World :=
  match filePathsList with
  | [] => (missingFiles, validFiles, w)
  | filePath :: rest =>
      let filePath := strings.TrimSpace filePath in
      if bool_decide (filePath = "") then
        validate_loop env rest missingFiles validFiles w
      else
        let w := emit (Stat filePath) w in
        match os_Stat env filePath with
        | ErrNotExist =>
            validate_loop env rest (missingFiles ++ [filePath]) validFiles w
        | _ =>
            validate_loop env rest missingFiles (validFiles ++ [filePath]) w
        end
  end.

(** [ValidateAndGetFileList]: the valid files, or the error. *)
Definition ValidateAndGetFileList (env : Env) (filePaths : string) (w : World)
  : (list string + string) * World :=
  let filePathsList := strings.FieldsFunc filePaths (fun r => Ascii.eqb r ",") in
  let '(missingFiles, validFiles, w) :=
    validate_loop env filePathsList [] [] w in
  if (0 <? length missingFiles)%nat then
    (inr ("file(s) do not exist or are not accessible: "
          +:+ strings.Join missingFiles ", "), w)
  else (inl validFiles, w).

(** The body of a request that reports how far it has been read (lines
    134-139); the file and the sink are with the caller. *)
Record progressBody : Type := mkProgressBody {
  read : Z;
  total : Z;
}.

(** The percentage of line 145. *)
Definition percent (pb : progressBody) : option Z :=
  float64.to_int
    (float64.div (float64.mul (float64.of_int (read pb)) (float64.of_int 100))
                 (float64.of_int (total pb))).

(** [progressBody.Read], given the number [n] of bytes that the file
    delivered: the body afterwards and what is forwarded to the sink. *)
Definition Read (pb : progressBody) (n : Z) : progressBody * list (option Z) :=
  if 0 <? n then
    let pb := mkProgressBody (int64 (read pb + n)) (total pb) in
    (pb, [percent pb])
  else (pb, []).

(** [barArrow]; [None] if a call of [strings.Repeat] panics. *)
Definition barArrow (pct : Z) : option string :=
  let width := progressCharCount in
  let pct := if pct <? 0 then 0 else pct in
  let pct := if pct >? 100 then 100 else pct in
  let pos := Z.quot (pct * width) 100 in
  if pos >=? width then
    full ← strings.Repeat "=" width;
    Some ("[" +:+ full +:+ "]")
  else
    done ← strings.Repeat "=" pos;
    let left := done +:+ ">" in
    right ← strings.Repeat " " (width - pos - 1);
    Some ("[" +:+ left +:+ right +:+ "]").

(** The [ [i/n] name<TAB> ] head of the per-file lines. *)
Definition file_tag (index count : nat) (fileName : string) : string :=
  "[" +:+ pretty (index + 1)%nat +:+ "/" +:+ pretty count +:+ "] "
  +:+ fileName +:+ tab.

(** [uploadFile], for a spinner that is not nil: the caller has written to
    [spinner.Suffix] before every call.  The label updates made by
    [progressBody.Read] while the request is being sent are overwritten on
    both ways out and are not recorded.  [barArrow 100] does not panic,
    so its string is taken directly. *)
Definition uploadFile (env : Env) (index count : nat)
  (postURL filePath signature expires metadata : string) (spn : nat)
  (w : World) : option string * World :=
  let fileName := filepath.Base filePath in
  let w := emit (Open filePath) w in
  match transferOf env index count postURL filePath signature expires metadata with
  | LocalFailure err => (Some err, w)
  | TransportFailure err =>
      (Some err, emit (Post postURL fileName signature expires metadata) w)
  | Replied StatusCode body =>
      let w := emit (Post postURL fileName signature expires metadata) w in
      if negb (StatusCode =? 200) && negb (StatusCode =? 201) then
        (Some (file_tag index count fileName +:+ "upload failed: " +:+ body), w)
      else
        let w := on_store (config.Stop spn) w in
        let w := emit (Stdout (file_tag index count fileName
                              +:+ default "" (barArrow 100) +:+ " ✅"
                              +:+ nl)) w in
        let w := on_store (config.setSuffix spn (" " +:+ uploadingMessage)) w in
        let w := on_store (config.Start spn) w in
        (None, w)
  end.

Definition requiredKeys : list string :=
  ["postURL"; "metadata"; "signature"; "expires"].

Definition has_key (params : gmap string iface) (key : string) : bool :=
  match params !! key with
  | Some _ => true
  | None => false
  end.

(** The loop of [UploadFiles] (lines 115-124); [i] is the index of the
    head of [files] in the batch of [count] files. *)
Fixpoint upload_loop (env : Env) (postURL signature expires metadata : string)
  (spinner : nat) (count i : nat) (files : list string) (errored : nat)
  (w : World) : nat * World :=
  match files with
  | [] => (errored, w)
  | filePath :: rest =>
      let w := on_store (config.setSuffix spinner
                 (" uploading " +:+ pretty (i + 1)%nat +:+ "/" +:+ pretty count
                  +:+ " " +:+ filepath.Base filePath +:+ "...")) w in
      match uploadFile env i count postURL filePath signature expires metadata
                       spinner w with
      | (Some err, w) =>
          let w := on_store (config.Stop spinner) w in
          let w := emit (Stdout ("Error uploading " +:+ filePath +:+ " : "
                                +:+ err +:+ nl)) w in
          let w := on_store (config.setSuffix spinner
                               (" " +:+ uploadingMessage)) w in
          let w := on_store (config.Start spinner) w in
          upload_loop env postURL signature expires metadata spinner count
                      (S i) rest (S errored) w
      | (None, w) =>
          upload_loop env postURL signature expires metadata spinner count
                      (S i) rest errored w
      end
  end.

(** The tail of [UploadFiles] (lines 125-130). *)
Definition finish (spinner : config.handle) (errored count : nat) (w : World)
  : World :=
  let w := mkWorld (config.StopSpinner (cfg w) spinner) (trace w) in
  if (0 <? errored)%nat then
    emit (Stdout ("🙈 " +:+ pretty errored +:+ " out of " +:+ pretty count
                 +:+ " files failed to upload." +:+ nl)) w
  else
    emit (Stdout ("All files uploaded successfully." +:+ nl)) w.

Definition invalid_format : event :=
  Stdout ("Invalid response format for getuploadparams." +:+ nl).

Definition missing_key (key : string) : event :=
  Stdout ("Missing required key '" +:+ key
         +:+ "' in getuploadparams response." +:+ nl).

(** [UploadFiles].  [reflect.TypeOf] of a nil interface is the nil [Type],
    whose [Kind] cannot be asked for; [StartSpinner] returns nil without a
    shell, and line 116 writes through that pointer. *)
Definition UploadFiles (env : Env) (api : string)
  (response : gmap string iface) (validFiles : list string) (w : World)
  : outcome :=
  match response !! "getuploadparams" with
  | None => Returned (emit invalid_format w)
  | Some paramsRaw =>
      match reflect.TypeOf paramsRaw, paramsRaw with
      | None, _ => Panicked w
      | Some KMap, IMap params =>
          match List.find (fun key => negb (has_key params key)) requiredKeys with
          | Some key => Returned (emit (missing_key key) w)
          | None =>
              let postURL := as_string (params !! "postURL") in
              let signature := as_string (params !! "signature") in
              let expires := as_string (params !! "expires") in
              let metadata := as_string (params !! "metadata") in
              let w := emit (Stdout ("Uploading files for " +:+ api +:+ " : "
                                    +:+ show_strings validFiles +:+ nl)) w in
              let '(spinner, c) := config.StartSpinner (cfg w) uploadingMessage in
              let w := mkWorld c (trace w) in
              match validFiles, spinner with
              | [], _ => Returned (finish spinner 0 (length validFiles) w)
              | _ :: _, None => Panicked w
              | _ :: _, Some spn =>
                  let '(errored, w) :=
                    upload_loop env postURL signature expires metadata spn
                                (length validFiles) 0 validFiles 0 w in
                  Returned (finish spinner errored (length validFiles) w)
              end
          end
      | Some _, _ => Returned (emit invalid_format w)
      end
  end.

Definition PromptAndUploadFilesIfNeeded (env : Env) (api : string)
  (response : gmap string iface) (w : World) : outcome :=
  if negb (config.HasShell (cfg w)) then Returned w
  else
    let apiName := strings.ToLower api in
    if negb (IsFileUploadAPI env apiName) then Returned w
    else
      let w := emit (Stdout "Enter path of the file(s) to upload (comma-separated), leave empty to skip: ") w in
      let filePaths := fmt.Scanln (typed env) in
      if bool_decide (filePaths = "") then Returned w
      else
        match ValidateAndGetFileList env filePaths w with
        | (inr err, w) => Returned (emit (Stdout (err +:+ nl)) w)
        | (inl validFiles, w) =>
            if (length validFiles =? 0)%nat then
              Returned (emit (Stdout ("No valid files to upload." +:+ nl)) w)
            else UploadFiles env api response validFiles w
        end.

End fileupload.

(** ** [cmd/fileupload.go], first revision ([src/unnamed/part_000]) *)

Module fileupload_v0.

(** The guards of [PromptAndUploadFileIfNeeded] (lines 40-48): [true] when
    the prompt of line 49 is reached. *)
Definition reaches_prompt (HasShell : bool) (api : string) : bool :=
  if negb HasShell then false
  else
    let apiName := strings.ToLower api in
    if negb (String.eqb apiName "getuploadparamsforiso") &&
       negb (String.eqb apiName "getuploadparamsforvolume") &&
       negb (String.eqb apiName "getuploadparamsfotemplate")
    then false
    else true.

(** The percentage of line 127, for [read] bytes out of [total]. *)
Definition percent (read total : Z) : option Z :=
  float64.to_int
    (float64.mul (float64.div (float64.of_int read) (float64.of_int total))
                 (float64.of_int 100)).

(** [uploadFile] of this revision.  What happens to a call is asked of
    [net]: an error returned before the request is sent (of [os.Open],
    [file.Stat], [CreateFormFile], [io.Copy] or [http.NewRequest]; the body
    is built in memory and there is no temporary file), an error of
    [client.Do], or a reply.  The labels written by [progressReader.Read]
    while the file is read are overwritten on both ways out and are not
    recorded. *)
Definition uploadFile (net : fileupload.answers) (call : nat)
  (postURL filePath signature expires metadata : string) (spinner : nat)
  (w : fileupload.World) : option string * fileupload.World :=
  let w := fileupload.emit (fileupload.Open filePath) w in
  let sent := fileupload.Post postURL (filepath.Base filePath) signature
                              expires metadata in
  match net call postURL filePath signature expires metadata with
  | fileupload.LocalFailure err => (Some err, w)
  | fileupload.TransportFailure err => (Some err, fileupload.emit sent w)
  | fileupload.Replied StatusCode body =>
      let w := fileupload.emit sent w in
      if negb (StatusCode =? 200) && negb (StatusCode =? 201) then
        (Some ("upload failed: " +:+ body), w)
      else
        let w := fileupload.on_store (config.Stop spinner) w in
        let w := fileupload.emit
                   (fileupload.Stdout ("Upload successful for: " +:+ filePath
                                       +:+ nl)) w in
        let w := fileupload.on_store
                   (config.setSuffix spinner
                      (" " +:+ fileupload.uploadingMessage)) w in
        let w := fileupload.on_store (config.Start spinner) w in
        (None, w)
  end.

(** The loop of lines 97-106. *)
Fixpoint upload_loop (net : fileupload.answers)
  (postURL signature expires metadata : string) (spinner : nat)
  (count i : nat) (files : list string) (errored : nat)
  (w : fileupload.World) : nat * fileupload.World :=
  match files with
  | [] => (errored, w)
  | filePath :: rest =>
      let w := fileupload.on_store
                 (config.setSuffix spinner
                    (" uploading " +:+ pretty (i + 1)%nat +:+ "/"
                     +:+ pretty count +:+ " " +:+ filepath.Base filePath
                     +:+ "...")) w in
      match uploadFile net i postURL filePath signature expires metadata
                       spinner w with
      | (Some err, w) =>
          let w := fileupload.on_store (config.Stop spinner) w in
          let w := fileupload.emit
                     (fileupload.Stdout ("Error uploading " +:+ filePath
                                         +:+ " : " +:+ err +:+ nl)) w in
          let w := fileupload.on_store
                     (config.setSuffix spinner
                        (" " +:+ fileupload.uploadingMessage)) w in
          let w := fileupload.on_store (config.Start spinner) w in
          upload_loop net postURL signature expires metadata spinner count
                      (S i) rest (S errored) w
      | (None, w) =>
          upload_loop net postURL signature expires metadata spinner count
                      (S i) rest errored w
      end
  end.

(** [PromptAndUploadFileIfNeeded].  The loop over the paths (lines 56-66)
    and the tail (lines 107-112) are those of the current revision, word
    for word. *)
Definition PromptAndUploadFileIfNeeded (env : fileupload.Env) (net : fileupload.answers)
  (api : string)
  (response : gmap string iface) (w : fileupload.World) : fileupload.outcome :=
  if negb (reaches_prompt (config.HasShell (fileupload.cfg w)) api) then
    fileupload.Returned w
  else
    let w := fileupload.emit
               (fileupload.Stdout "Enter path of the file(s) to upload (comma-separated): ") w in
    let filePathsList :=
      strings.FieldsFunc (fmt.Scanln (fileupload.typed env)) (fun r => Ascii.eqb r ",") in
    let '(missingFiles, validFiles, w) :=
      fileupload.validate_loop env filePathsList [] [] w in
    if (0 <? length missingFiles)%nat then
      fileupload.Returned
        (fileupload.emit
           (fileupload.Stdout ("File(s) do not exist or are not accessible: "
                               +:+ strings.Join missingFiles ", " +:+ nl)) w)
    else if (length validFiles =? 0)%nat then
      fileupload.Returned
        (fileupload.emit (fileupload.Stdout ("No valid files to upload." +:+ nl)) w)
    else
      match response !! "getuploadparams" with
      | None => fileupload.Returned (fileupload.emit fileupload.invalid_format w)
      | Some paramsRaw =>
          match reflect.TypeOf paramsRaw, paramsRaw with
          | None, _ => fileupload.Panicked w
          | Some KMap, IMap params =>
              match List.find (fun key => negb (fileupload.has_key params key))
                              fileupload.requiredKeys with
              | Some key =>
                  fileupload.Returned
                    (fileupload.emit (fileupload.missing_key key) w)
              | None =>
                  let postURL := as_string (params !! "postURL") in
                  let signature := as_string (params !! "signature") in
                  let expires := as_string (params !! "expires") in
                  let metadata := as_string (params !! "metadata") in
                  let w := fileupload.emit
                             (fileupload.Stdout
                                ("Uploading files for " +:+ api +:+ " : "
                                 +:+ fileupload.show_strings validFiles +:+ nl)) w in
                  let '(spinner, c) :=
                    config.StartSpinner (fileupload.cfg w)
                                        fileupload.uploadingMessage in
                  let w := fileupload.mkWorld c (fileupload.trace w) in
                  match spinner with
                  | None => fileupload.Panicked w
                  | Some spn =>
                      let '(errored, w) :=
                        upload_loop net postURL signature expires metadata spn
                                    (length validFiles) 0 validFiles 0 w in
                      fileupload.Returned
                        (fileupload.finish spinner errored (length validFiles) w)
                  end
              end
          | Some _, _ =>
              fileupload.Returned (fileupload.emit fileupload.invalid_format w)
          end
      end.

End fileupload_v0.

(** ** [cmd/api.go] ([src/unnamed/part_002]) *)

Module api.

(** The fields of [config.API] that the handler reads. *)
Record API : Type := mkAPI {
  Name : string;
  RequiredArgs : list string;
  Async : bool;
}.

Record Request : Type := mkRequest {
  Args : list string;
  HasShell : bool;
  Cache : gmap string API;
}.

(** The collaborators of the handler: [NewAPIRequest], which returns a
    response ([None] for the nil map) and an error, and the error that
    [helpCommand.Handle] returns. *)
Record Env : Type := mkEnv {
  NewAPIRequest : string -> list string -> bool
                  -> option (gmap string iface) * option string;
  helpError : list string -> option string;
}.

Inductive event : Type :=
| Stdout (text : string)
| Help (args : list string)
| Call (name : string) (args : list string) (async : bool)
| Rendered (response : gmap string iface) (filterKeys excludeKeys : list string)
| PromptForFileUpload (api : string) (response : gmap string iface).

(** Lines 49-54: the name looked up and the arguments left over. *)
Definition resolve (cache : gmap string API) (args : list string)
  : string * list string :=
  let apiName := strings.ToLower (hd "" args) in
  let apiArgs := drop 1 args in
  match cache !! apiName with
  | None =>
      if (1 <? length args)%nat then
        (strings.ToLower (strings.Join (take 2 args) ""), drop 2 args)
      else (apiName, apiArgs)
  | Some _ => (apiName, apiArgs)
  end.

(** Lines 71-76: the inner loop over the arguments. *)
Definition provided_loop (required : string) (apiArgs : list string) : bool :=
  foldl (fun provided arg =>
           if strings.Contains arg "=" && strings.HasPrefix arg required
           then true else provided)
        false apiArgs.

(** Lines 68-80. *)
Definition missing_loop (requiredArgs apiArgs : list string) : list string :=
  foldl (fun missingArgs required =>
           let required := strings.ReplaceAll required "=" "" in
           if negb (provided_loop required apiArgs) then
             missingArgs ++ [strings.ReplaceAll required "=" ""]
           else missingArgs)
        [] requiredArgs.

(** Lines 97-117: the keys named by the arguments that start with [key]. *)
Definition hint_keys (key : string) (apiArgs : list string) : list string :=
  foldl (fun keys arg =>
           if strings.HasPrefix arg key then
             foldl (fun keys k =>
                      if (0 <? String.length (strings.TrimSpace k))%nat
                      then keys ++ [strings.TrimSpace k] else keys)
                   keys
                   (strings.Split (nth 1 (strings.Split arg "=") "") ",")
           else keys)
        [] apiArgs.

(** Lines 121-128. *)
Definition upload_follow_up (hasShell : bool) (api : API)
  (response : gmap string iface) : list event :=
  if hasShell then
    let apiName := strings.ToLower (Name api) in
    if String.eqb apiName "getuploadparamsforiso" ||
       String.eqb apiName "getuploadparamsforvolume" ||
       String.eqb apiName "getuploadparamsfotemplate"
    then [PromptForFileUpload apiName response]
    else []
  else [].

(** Lines 68-130: what happens once the API has been found. *)
Definition run (env : Env) (hasShell : bool) (api : API) (apiArgs : list string)
  : list event * option string :=
  let missingArgs := missing_loop (RequiredArgs api) apiArgs in
  if (0 <? length missingArgs)%nat then
    ([Stdout ("💩 Missing required parameters:  "
             +:+ strings.Join missingArgs ", " +:+ nl)], None)
  else
    let call := Call (Name api) apiArgs (Async api) in
    match NewAPIRequest env (Name api) apiArgs (Async api) with
    | (response, Some err) =>
        if strings.HasSuffix err "context canceled" then ([call], None)
        else
          match response with
          | Some resp => ([call; Rendered resp [] []], Some err)
          | None => ([call], Some err)
          end
    | (response, None) =>
        let filterKeys := hint_keys "filter=" apiArgs in
        let excludeKeys := hint_keys "exclude=" apiArgs in
        match response with
        | Some resp =>
            if (0 <? size resp)%nat then
              (call :: Rendered resp filterKeys excludeKeys
                    :: upload_follow_up hasShell api resp, None)
            else ([call], None)
        | None => ([call], None)
        end
    end.

(** [uploadFile] of this file (lines 193-233).  What happens to a call is
    asked of [net]: an error returned before the request is sent (of
    [os.Open], [CreateFormFile], [io.Copy] or [http.NewRequest]; the file is
    not statted and the body is built in memory), an error of [client.Do],
    or a reply. *)
Definition uploadFile (net : fileupload.answers) (call : nat)
  (postURL filePath signature expires metadata : string)
  (w : fileupload.World) : option string * fileupload.World :=
  let w := fileupload.emit (fileupload.Open filePath) w in
  let sent := fileupload.Post postURL (filepath.Base filePath) signature
                              expires metadata in
  match net call postURL filePath signature expires metadata with
  | fileupload.LocalFailure err => (Some err, w)
  | fileupload.TransportFailure err => (Some err, fileupload.emit sent w)
  | fileupload.Replied StatusCode body =>
      let w := fileupload.emit sent w in
      if negb (StatusCode =? 200) && negb (StatusCode =? 201) then
        (Some ("upload failed: " +:+ body), w)
      else
        (None,
         fileupload.emit
           (fileupload.Stdout ("Upload successful for: " +:+ filePath +:+ nl)) w)
  end.

(** The loop of lines 185-189. *)
Fixpoint upload_loop (net : fileupload.answers)
  (postURL signature expires metadata : string) (i : nat)
  (files : list string) (w : fileupload.World) : fileupload.World :=
  match files with
  | [] => w
  | filePath :: rest =>
      match uploadFile net i postURL filePath signature expires metadata w with
      | (Some err, w) =>
          upload_loop net postURL signature expires metadata (S i) rest
            (fileupload.emit
               (fileupload.Stdout ("Error uploading " +:+ filePath +:+ " : "
                                   +:+ err +:+ nl)) w)
      | (None, w) =>
          upload_loop net postURL signature expires metadata (S i) rest w
      end
  end.

(** [promptForFileUpload] (lines 135-190).  The loop over the paths is the
    one of [cmd/fileupload.go], word for word; the spinner is stopped by
    the deferred call when the function returns after line 182. *)
Definition promptForFileUpload (env : fileupload.Env) (net : fileupload.answers)
  (api : string)
  (response : gmap string iface) (w : fileupload.World) : fileupload.outcome :=
  let w := fileupload.emit
             (fileupload.Stdout "Enter path of the file(s) to upload (comma-separated): ") w in
  let filePathsList :=
    strings.FieldsFunc (fmt.Scanln (fileupload.typed env)) (fun r => Ascii.eqb r ",") in
  let '(missingFiles, validFiles, w) :=
    fileupload.validate_loop env filePathsList [] [] w in
  if (0 <? length missingFiles)%nat then
    fileupload.Returned
      (fileupload.emit
         (fileupload.Stdout ("File(s) do not exist or are not accessible: "
                             +:+ strings.Join missingFiles ", " +:+ nl)) w)
  else if (length validFiles =? 0)%nat then
    fileupload.Returned
      (fileupload.emit (fileupload.Stdout ("No valid files to upload." +:+ nl)) w)
  else
    match response !! "getuploadparams" with
    | None => fileupload.Returned (fileupload.emit fileupload.invalid_format w)
    | Some paramsRaw =>
        match reflect.TypeOf paramsRaw, paramsRaw with
        | None, _ => fileupload.Panicked w
        | Some KMap, IMap params =>
            match List.find (fun key => negb (fileupload.has_key params key))
                            fileupload.requiredKeys with
            | Some key =>
                fileupload.Returned
                  (fileupload.emit (fileupload.missing_key key) w)
            | None =>
                let postURL := as_string (params !! "postURL") in
                let signature := as_string (params !! "signature") in
                let expires := as_string (params !! "expires") in
                let metadata := as_string (params !! "metadata") in
                let w := fileupload.emit
                           (fileupload.Stdout
                              ("Uploading files for " +:+ api +:+ " : "
                               +:+ fileupload.show_strings validFiles +:+ nl)) w in
                let '(spinner, c) :=
                  config.StartSpinner (fileupload.cfg w)
                                      "uploading files, please wait..." in
                let w := fileupload.mkWorld c (fileupload.trace w) in
                let w := upload_loop net postURL signature expires metadata
                                     0 validFiles w in
                fileupload.Returned
                  (fileupload.mkWorld
                     (config.StopSpinner (fileupload.cfg w) spinner)
                     (fileupload.trace w))
            end
        | Some _, _ =>
            fileupload.Returned (fileupload.emit fileupload.invalid_format w)
        end
    end.

(** The handler of the [api] command. *)
Definition Handle (env : Env) (r : Request) : list event * option string :=
  match Args r with
  | [] => ([], Some "please provide an API to execute")
  | _ :: _ =>
      let '(apiName, apiArgs) := resolve (Cache r) (Args r) in
      if existsb (fun arg => String.eqb arg "-h") (Args r) then
        let args := apiName :: drop 1 (Args r) in
        ([Help args], helpError env args)
      else
        match Cache r !! apiName with
        | None => ([], Some "unknown command or API requested")
        | Some api => run env (HasShell r) api apiArgs
        end
  end.

End api.

(** ** [cmd/switch.go] *)

Module switch.

Record Request : Type := mkRequest {
  Args : list string;
  HasShell : bool;
  SubCommands : gmap string (list string);
}.

(** What is printed of the configuration once a profile is loaded. *)
Record Loaded : Type := mkLoaded {
  ProfileName : string;
  URL : string;
  Username : string;
  Domain : string;
  APIKey : string;
  TotalAPIs : nat;
}.

(** The collaborators of the handler, all declared outside the files at
    hand: [config.CheckIfValuePresent], [Config.LoadProfile] with the error
    it returns or the configuration it leaves, and the order in which
    [reflect] lists the keys of the sub-command table. *)
Record Env : Type := mkEnv {
  CheckIfValuePresent : list string -> string -> bool;
  LoadProfile : string -> bool -> string + Loaded;
  MapKeys : gmap string (list string) -> list string;
}.

Inductive event : Type :=
| Stdout (text : string)
| Logged (operands : list string)
| ProfileLoad (name : string) (update : bool).

Definition usage : string :=
  "Usage: switch <subcommand> <option>. Press tab-tab to see available subcommands and options.".

Definition loaded_report (p : Loaded) : string :=
  "Loaded server profile: " +:+ ProfileName p +:+ nl
  +:+ "Url:        " +:+ URL p +:+ nl
  +:+ "Username:   " +:+ Username p +:+ nl
  +:+ "Domain:     " +:+ Domain p +:+ nl
  +:+ "API Key:    " +:+ APIKey p +:+ nl
  +:+ "Total APIs: " +:+ pretty (TotalAPIs p) +:+ nl +:+ nl.

(** Lines 55-68: the sub-command [profile]. *)
Definition switch_profile (env : Env) (hasShell : bool) (value : string)
  : list event * option string :=
  match LoadProfile env value false with
  | inl err =>
      if hasShell then
        ([ProfileLoad value false;
          Stdout ("Failed to switch to server profile: " +:+ value
                  +:+ " due to: " +:+ err +:+ nl)], None)
      else ([ProfileLoad value false], Some err)
  | inr p =>
      if hasShell then
        ([ProfileLoad value false; Stdout (loaded_report p)], None)
      else ([ProfileLoad value false], None)
  end.

(** The handler of the [switch] command. *)
Definition Handle (env : Env) (r : Request) : list event * option string :=
  if (length (Args r) <? 1)%nat then
    ([Stdout ("Please provide one of the sub-commands:  ["
              +:+ strings.Join (MapKeys env (SubCommands r)) " " +:+ "]" +:+ nl)],
     None)
  else
    let subCommand := hd "" (Args r) in
    let value := strings.Trim (strings.Join (drop 1 (Args r)) " ") " " in
    let log := Logged ["Switch command received:"; subCommand; " values:"; value] in
    if String.eqb (List.last (Args r) "") "-h" then
      ([log; Stdout (usage +:+ nl)], None)
    else
      let validArgs := default [] (SubCommands r !! subCommand) in
      if negb (length validArgs =? 0)%nat
         && negb (CheckIfValuePresent env validArgs value)
      then
        ([log], Some ("Invalid value for " +:+ subCommand
                      +:+ ". Supported values: "
                      +:+ strings.Join validArgs ", "))
      else if String.eqb subCommand "profile" then
        let '(events, err) := switch_profile env (HasShell r) value in
        (log :: events, err)
      else ([log], None).

End switch.

(** ** The specification's wording of the progress bar *)

(** [n] completed cells, a head unless the bar is full, blanks after it. *)
Definition bar_as_specified (p : Z) : string :=
  let completed := Z.to_nat (p * 24 / 100) in
  strings.replicate_byte "=" completed +:+
  (if (completed <? 24)%nat
   then ">" +:+ strings.replicate_byte " " (23 - completed)
   else "").

(** ** Observations on the spinner controller *)

(** Membership of a handle in the active set. *)
Definition in_active_set (c : config.Config) (l : nat) : bool :=
  bool_decide (Some l ∈ config.activeSpinners c).

Definition running (c : config.Config) (l : nat) : bool :=
  config.Active (config.store c) l.

(** The spinners that run in [before] and no longer run in [after]. *)
Definition halted (before after : config.Config) : list nat :=
  List.filter (fun l => running before l && negb (running after l))
              (seq 0 (length (config.store before))).

(** One spinner was started, and then all were paused. *)
Definition paused_config : config.Config :=
  (config.PauseActiveSpinners
     (config.StartSpinner (config.mkConfig true [] []) "busy").2).2.

(** ** The argument validator, as the specification words it *)

(** The name the handler checks and reports for a registry token. *)
Definition required_name (token : string) : string :=
  strings.ReplaceAll token "=" "".

(** A token that contains [=] and starts with the name. *)
Definition satisfies (name arg : string) : bool :=
  strings.Contains arg "=" && strings.HasPrefix arg name.

Definition missing_as_specified (requiredArgs apiArgs : list string)
  : list string :=
  List.filter (fun name => negb (existsb (satisfies name) apiArgs))
              (map required_name requiredArgs).

(** The token without a [=] at its end. *)
Fixpoint strip_trailing_eq (token : string) : string :=
  match token with
  | "" => ""
  | String c "" => if Ascii.eqb c "=" then "" else token
  | String c rest => String c (strip_trailing_eq rest)
  end.

(** The validator with the names derived as the specification words it. *)
Definition missing_as_worded (requiredArgs apiArgs : list string)
  : list string :=
  List.filter (fun name => negb (existsb (satisfies name) apiArgs))
              (map strip_trailing_eq requiredArgs).

(** A registry with one two-word API, for the resolver. *)
Definition listUsers : api.API := api.mkAPI "listUsers" [] false.

Definition users_cache : gmap string api.API := {[ "listusers" := listUsers ]}.

(** ** A credential response and an interactive request for it *)

Definition upload_params : gmap string iface :=
  {[ "postURL" := IString "https://ssvm.example/upload/1";
     "metadata" := IString "meta";
     "signature" := IString "sig";
     "expires" := IString "2030-01-01T00:00:00Z" ]}.

Definition upload_response : gmap string iface :=
  {[ "getuploadparams" := IMap upload_params ]}.

(** The key is there and holds JSON [null]. *)
Definition nil_params_response : gmap string iface :=
  {[ "getuploadparams" := INil ]}.

Definition template_api : api.API :=
  api.mkAPI "getUploadParamsForTemplate" [] false.

Definition template_env : api.Env :=
  api.mkEnv (fun _ _ _ => (Some upload_response, None)) (fun _ => None).

Definition template_request : api.Request :=
  api.mkRequest ["getUploadParamsForTemplate"; "name=t1"] true
                {[ "getuploadparamsfortemplate" := template_api ]}.

(** ** File-path validation, as the specification words it *)

(** Split on commas, trim every entry, drop the entries that are empty. *)
Definition candidate_paths (filePaths : string) : list string :=
  List.filter (fun p => negb (String.eqb p ""))
              (map strings.TrimSpace (strings.Split filePaths ",")).

(** The test of line 52: [os.IsNotExist] of the error of [os.Stat]. *)
Definition IsNotExist (env : fileupload.Env) (path : string) : bool :=
  match fileupload.os_Stat env path with
  | fileupload.ErrNotExist => true
  | _ => false
  end.

(** Nothing exists at the path, by what [os.Stat] answers. *)
Definition nothing_there (env : fileupload.Env) (path : string) : bool :=
  match fileupload.os_Stat env path with
  | fileupload.ErrNotExist | fileupload.ErrNotDir => true
  | _ => false
  end.

Definition missing_report (missing : list string) : string :=
  "file(s) do not exist or are not accessible: " +:+ strings.Join missing ", ".

Definition prompt_line : fileupload.event :=
  fileupload.Stdout "Enter path of the file(s) to upload (comma-separated), leave empty to skip: ".

(** The world after further events. *)
Definition after (w : fileupload.World) (events : list fileupload.event)
  : fileupload.World :=
  fileupload.mkWorld (fileupload.cfg w) (fileupload.trace w ++ events).

(** A file system in which only [b.txt] does not exist. *)
Definition only_b_missing (scanned : string) (isUpload : string -> bool)
  (net : nat -> nat -> string -> string -> string -> string -> string
         -> fileupload.transfer) : fileupload.Env :=
  fileupload.mkEnv
    (fun path => if String.eqb path "b.txt" then fileupload.ErrNotExist
                 else fileupload.StatOk)
    scanned isUpload net.

(** ** One upload batch, file by file *)

Section batch.
Variable env : fileupload.Env.
Variables postURL signature expires metadata : string.
Variable count : nat.

Definition error_line (filePath err : string) : fileupload.event :=
  fileupload.Stdout ("Error uploading " +:+ filePath +:+ " : " +:+ err +:+ nl).

Definition success_line (i : nat) (filePath : string) : fileupload.event :=
  fileupload.Stdout (fileupload.file_tag i count (filepath.Base filePath)
                    +:+ "[========================] ✅" +:+ nl).

(** The file at index [i] fails: an error before or while sending, or a
    status other than 200 and 201. *)
Definition fails (i : nat) (filePath : string) : bool :=
  match fileupload.transferOf env i count postURL filePath signature expires
                              metadata with
  | fileupload.Replied StatusCode _ =>
      negb ((StatusCode =? 200) || (StatusCode =? 201))
  | _ => true
  end.

(** What is observed for the file at index [i]. *)
Definition file_events (i : nat) (filePath : string) : list fileupload.event :=
  let sent := fileupload.Post postURL (filepath.Base filePath) signature
                              expires metadata in
  fileupload.Open filePath ::
  match fileupload.transferOf env i count postURL filePath signature expires
                              metadata with
  | fileupload.LocalFailure err => [error_line filePath err]
  | fileupload.TransportFailure err => [sent; error_line filePath err]
  | fileupload.Replied StatusCode body =>
      if (StatusCode =? 200) || (StatusCode =? 201)
      then [sent; success_line i filePath]
      else [sent;
            error_line filePath
              (fileupload.file_tag i count (filepath.Base filePath)
               +:+ "upload failed: " +:+ body)]
  end.

Fixpoint batch_events (i : nat) (files : list string) : list fileupload.event :=
  match files with
  | [] => []
  | filePath :: rest => file_events i filePath ++ batch_events (S i) rest
  end.

Fixpoint failures (i : nat) (files : list string) : nat :=
  match files with
  | [] => 0
  | filePath :: rest =>
      ((if fails i filePath then 1 else 0) + failures (S i) rest)%nat
  end.

End batch.

(** The files that were asked for, and the lines that report an error. *)
Definition opened (events : list fileupload.event) : list string :=
  omap (fun e => match e with fileupload.Open path => Some path | _ => None end)
       events.

Definition error_lines (events : list fileupload.event) : nat :=
  length (List.filter
            (fun e => match e with
                      | fileupload.Stdout text =>
                          strings.HasPrefix text "Error uploading "
                      | _ => false
                      end) events).

Definition header_line (api : string) (files : list string) : fileupload.event :=
  fileupload.Stdout ("Uploading files for " +:+ api +:+ " : "
                    +:+ fileupload.show_strings files +:+ nl).

Definition summary_line (failed total : nat) : fileupload.event :=
  if (0 <? failed)%nat then
    fileupload.Stdout ("🙈 " +:+ pretty failed +:+ " out of " +:+ pretty total
                      +:+ " files failed to upload." +:+ nl)
  else fileupload.Stdout ("All files uploaded successfully." +:+ nl).

(** The summary of a failed batch as the specification words it. *)
Definition summary_as_worded (failed total : nat) : string :=
  pretty failed +:+ " of " +:+ pretty total +:+ " files failed to upload.".

(** A batch of three whose second file is answered with status 500. *)
Definition second_fails : fileupload.Env :=
  fileupload.mkEnv (fun _ => fileupload.StatOk) "" (fun _ => true)
    (fun index _ _ _ _ _ _ =>
       if (index =? 1)%nat then fileupload.Replied 500 "disk full"
       else fileupload.Replied 200 "").

Definition three_files : list string := ["a.iso"; "b.iso"; "c.iso"].

Definition shell_world : fileupload.World :=
  fileupload.mkWorld (config.mkConfig true [] []) [].

(** ** The bookkeeping of the spinner controller *)

(** A handle that points at an allocated spinner. *)
Definition allocated (c : config.Config) (h : config.handle) : bool :=
  match h with
  | Some l => (l <? length (config.store c))%nat
  | None => false
  end.

(** Every entry of the active set is an allocated spinner, entered once:
    what [StartSpinner] establishes for the sets it builds. *)
Definition well_formed (c : config.Config) : bool :=
  forallb (allocated c) (config.activeSpinners c)
  && bool_decide (NoDup (config.activeSpinners c)).

(** Every spinner of the active set is animating. *)
Definition all_running (c : config.Config) : bool :=
  forallb (fun h => match h with
                    | Some l => running c l
                    | None => true
                    end)
          (config.activeSpinners c).

(** Two spinners were started in a shell. *)
Definition two_spinners : config.Config :=
  (config.StartSpinner
     (config.StartSpinner (config.mkConfig true [] []) "first").2 "second").2.

(** ** Observations on [UploadFiles] *)

(** The mapping under [getuploadparams], if it is one and holds the four
    keys. *)
Definition credentials (response : gmap string iface)
  : option (gmap string iface) :=
  match response !! "getuploadparams" with
  | Some (IMap params) =>
      if forallb (fileupload.has_key params) fileupload.requiredKeys
      then Some params else None
  | _ => None
  end.

Definition world_of (o : fileupload.outcome) : fileupload.World :=
  match o with
  | fileupload.Returned w => w
  | fileupload.Panicked w => w
  end.

Definition panicked (o : fileupload.outcome) : bool :=
  match o with
  | fileupload.Returned _ => false
  | fileupload.Panicked _ => true
  end.

(** A shell with two spinners of its own. *)
Definition busy_world : fileupload.World :=
  fileupload.mkWorld two_spinners [].

(** ** Observations on the API handler *)

Definition is_call (e : api.event) : bool :=
  match e with
  | api.Call _ _ _ => true
  | _ => false
  end.

(** The requests made to the API. *)
Definition calls (events : list api.event) : list api.event :=
  List.filter is_call events.

Definition help_requested (args : list string) : bool :=
  existsb (fun arg => String.eqb arg "-h") args.

(** The keys of one [filter=] or [exclude=] argument: the text between its
    first and its second [=], split on commas, trimmed, blanks dropped. *)
Definition keys_of (arg : string) : list string :=
  List.filter (fun k => negb (String.eqb k ""))
    (map strings.TrimSpace
         (strings.Split (nth 1 (strings.Split arg "=") "") ",")).

(** An interactive request for the ISO upload parameters. *)
Definition iso_api : api.API := api.mkAPI "getUploadParamsForIso" ["name="] false.

Definition iso_request : api.Request :=
  api.mkRequest ["getUploadParamsForIso"; "name=i1"; "filter=postURL, expires"]
                true {[ "getuploadparamsforiso" := iso_api ]}.

Definition is_prompt (e : api.event) : bool :=
  match e with
  | api.PromptForFileUpload _ _ => true
  | _ => false
  end.

(** ** Observations on the [switch] handler *)

(** The profile loads that were asked for, and the lines printed. *)
Definition loads (events : list switch.event) : list switch.event :=
  List.filter (fun e => match e with
                        | switch.ProfileLoad _ _ => true
                        | _ => false
                        end) events.


(** The value the handler derives from the tokens after the first. *)
Definition switch_value (r : switch.Request) : string :=
  strings.Trim (strings.Join (drop 1 (switch.Args r)) " ") " ".

(** The value is constrained for the sub-command and is not among the
    permitted ones. *)
Definition rejected (env : switch.Env) (r : switch.Request) : bool :=
  let validArgs := default [] (switch.SubCommands r !! hd "" (switch.Args r)) in
  negb (length validArgs =? 0)%nat
  && negb (switch.CheckIfValuePresent env validArgs (switch_value r)).

Definition asks_usage (r : switch.Request) : bool :=
  String.eqb (List.last (switch.Args r) "") "-h".

(** ** What a prompt flow does besides printing *)

(** The events other than output: paths looked at, files opened, requests
    sent. *)
Definition io (events : list fileupload.event) : list fileupload.event :=
  List.filter (fun e => match e with
                        | fileupload.Stdout _ => false
                        | _ => true
                        end) events.





(** The number of completed cells drawn in a bar. *)
Fixpoint completed (bar : string) : nat :=
  match bar with
  | "" => 0
  | String c rest =>
      ((if Ascii.eqb c "=" then 1 else 0) + completed rest)%nat
  end.

(** The controller as a flow leaves it, against the controller as it found
    it: the same active set, the same shell flag, and every spinner that
    existed in the state it had. *)
Definition left_as_found (before after : config.Config) : Prop :=
  config.activeSpinners after = config.activeSpinners before
  /\ config.HasShell after = config.HasShell before
  /\ take (length (config.store before)) (config.store after)
     = config.store before.

(** Two files that exist, typed at the prompt of a busy shell. *)
Definition two_files_typed : fileupload.Env :=
  fileupload.mkEnv (fun _ => fileupload.StatOk) "a.iso,b.iso" (fun _ => true)
    (fun index _ _ _ _ _ _ =>
       if (index =? 1)%nat then fileupload.Replied 500 "disk full"
       else fileupload.Replied 200 "").

(** The server accepts every file of a batch but the second. *)
Definition second_refused : fileupload.answers :=
  fun index _ _ _ _ _ =>
    if (index =? 1)%nat then fileupload.Replied 500 "disk full"
    else fileupload.Replied 200 "".

(** A directory in which [a.txt] and [b.txt] are regular files: a path
    that leads through [a.txt] is answered with ENOTDIR, and [os.Open]
    refuses it; the server accepts what it is sent.  The token read at the
    prompt is [a.txt/x,b.txt]. *)
Definition through_a_file : fileupload.Env :=
  fileupload.mkEnv
    (fun path => if strings.HasPrefix path "a.txt/" then fileupload.ErrNotDir
                 else fileupload.StatOk)
    "a.txt/x,b.txt"
    (fun name => String.eqb name "getuploadparamsforiso")
    (fun _ _ _ filePath _ _ _ =>
       if strings.HasPrefix filePath "a.txt/"
       then fileupload.LocalFailure "open a.txt/x: not a directory"
       else fileupload.Replied 200 "").

(** ** Observations on [float64] *)

(** The second half of [binary_round_aux]: the rounded mantissa is brought
    back to 53 digits. *)
Definition round_finish (sx : bool) (m e : Z) : spec_float :=
  let '(mrs, e) := shr_fexp 53 1024 m e loc_Exact in
  match shr_m mrs with
  | Z0 => S754_zero sx
  | Zpos m => if e <=? 1024 - 53 then S754_finite sx m e else S754_infinity sx
  | Zneg _ => S754_nan
  end.

(** The number [f] is the integer [z]: its mantissa [m] has 53 digits and
    [m * 2 ^ e] is [z]. *)
Definition holds (f : spec_float) (z : Z) : Prop :=
  exists (m : positive) (e : Z),
    f = S754_finite false m e
    /\ Zpos (digits2_pos m) = 53
    /\ -52 <= e <= 2
    /\ Zpos m * 2 ^ (e + 52) = z * 2 ^ 52.

(** The location is half-way or above. *)
Definition round_bit (l : location) : bool :=
  match l with
  | loc_Inexact Eq | loc_Inexact Gt => true
  | _ => false
  end.

(** ** The progress of a body, as the specification words it *)

Definition percent_as_specified (k S : Z) : Z := k * 100 / S.

(** What the sink receives while a body of [total] bytes is read in
    pieces of the sizes [pieces]. *)
Fixpoint forwarded_from (pb : fileupload.progressBody) (pieces : list Z)
  : list (option Z) :=
  match pieces with
  | [] => []
  | n :: rest =>
      let '(pb, out) := fileupload.Read pb n in
      out ++ forwarded_from pb rest
  end.

Definition forwarded (total : Z) (pieces : list Z) : list (option Z) :=
  forwarded_from (fileupload.mkProgressBody 0 total) pieces.

(** The numbers of bytes read after each piece that is not empty. *)
Fixpoint read_after (k : Z) (pieces : list Z) : list Z :=
  match pieces with
  | [] => []
  | n :: rest =>
      if 0 <? n then (k + n) :: read_after (k + n) rest
      else read_after k rest
  end.

Fixpoint sum_of (pieces : list Z) : Z :=
  match pieces with
  | [] => 0
  | n :: rest => n + sum_of rest
  end.

(** A body of 2^47 + 1 bytes, and a number of bytes read of it. *)
Definition body_above_bound : Z := 140737488355329.
Definition read_above_bound : Z := 97108866965177.

(** A body of 360287970189641 bytes. *)
Definition large_body : Z := 360287970189641.

(** * Properties *)

(** ** The library functions on examples *)

Example Repeat_3 : strings.Repeat "=" 3 = Some "===".
Proof. reflexivity. Qed.
Example ToLower_ex : strings.ToLower "getUploadParamsForISO" = "getuploadparamsforiso".
Proof. reflexivity. Qed.
Example Fields_ex : strings.FieldsFunc " a.txt, ,b.txt " (Ascii.eqb ",") = [" a.txt"; " "; "b.txt "].
Proof. reflexivity. Qed.
Example Fields_ex2 : strings.FieldsFunc ",,a,,b," (Ascii.eqb ",") = ["a"; "b"].
Proof. reflexivity. Qed.
Example Split_ex : strings.Split ",,a,,b," "," = [""; ""; "a"; ""; "b"; ""].
Proof. reflexivity. Qed.
Example percent_ex :
  map (fun k => fileupload.percent (fileupload.mkProgressBody k 7)) [3; 6; 7]
  = [Some 42; Some 85; Some 100].
Proof. by vm_compute. Qed.
Example percent_first_ex :
  fileupload_v0.percent 29 100 = Some 28
  /\ fileupload.percent (fileupload.mkProgressBody 29 100) = Some 29.
Proof. by vm_compute. Qed.
Example Scanln_ex : fmt.Scanln "a.txt, b.txt" = "a.txt,".
Proof. reflexivity. Qed.
Example Scanln_ex2 : fmt.Scanln "  a.txt,b.txt  " = "a.txt,b.txt".
Proof. reflexivity. Qed.
Example Scanln_ex3 : fmt.Scanln "" = "".
Proof. reflexivity. Qed.
Example Trim_ex : strings.TrimSpace "  a b  " = "a b".
Proof. reflexivity. Qed.
Example Base_ex : filepath.Base "/tmp/x/a.iso" = "a.iso" /\ filepath.Base "a.iso" = "a.iso" /\ filepath.Base "/a/b//" = "b" /\ filepath.Base "///" = "/".
Proof. repeat split; reflexivity. Qed.
Example pretty_ex : pretty 13%nat = "13".
Proof. reflexivity. Qed.

(** ** Strings *)

Lemma str_app_cons (c : ascii) (s t : string) :
  String c s +:+ t = String c (s +:+ t).
Proof. reflexivity. Qed.

Lemma str_app_nil_l (s : string) : "" +:+ s = s.
Proof. reflexivity. Qed.

Lemma str_app_nil_r (s : string) : s +:+ "" = s.
Proof. induction s as [|c s IH]; [reflexivity|]. by rewrite str_app_cons, IH. Qed.

Lemma str_app_assoc (s t u : string) : (s +:+ t) +:+ u = s +:+ t +:+ u.
Proof. induction s as [|c s IH]; [reflexivity|]. by rewrite !str_app_cons, IH. Qed.

Lemma str_length_app (s t : string) :
  String.length (s +:+ t) = (String.length s + String.length t)%nat.
Proof. induction s as [|c s IH]; [reflexivity|]. rewrite str_app_cons. simpl. by rewrite IH. Qed.

Lemma length_replicate_byte (c : ascii) (n : nat) :
  String.length (strings.replicate_byte c n) = n.
Proof. induction n as [|n IH]; simpl; congruence. Qed.

(** ** The progress bar *)

Lemma Repeat_nonneg (c : ascii) (n : Z) :
  0 <= n -> strings.Repeat c n = Some (strings.replicate_byte c (Z.to_nat n)).
Proof. intros Hn. unfold strings.Repeat. destruct (Z.ltb_spec n 0); [lia|reflexivity]. Qed.

Lemma barArrow_clamped (p : Z) :
  0 <= p <= 100 ->
  fileupload.barArrow p = Some ("[" +:+ bar_as_specified p +:+ "]").
Proof.
  intros Hp. unfold fileupload.barArrow, bar_as_specified, fileupload.progressCharCount.
  destruct (Z.ltb_spec p 0); [lia|].
  destruct (Z.gtb_spec p 100); [lia|].
  rewrite Z.quot_div_nonneg by lia.
  assert (0 <= p * 24 / 100 <= 24) as Hpos.
  { split; [apply Z.div_pos; lia|]. apply Z.div_le_upper_bound; lia. }
  destruct (Z.geb_spec (p * 24 / 100) 24) as [Hge|Hlt].
  - rewrite Repeat_nonneg by lia. simpl.
    replace (p * 24 / 100) with 24 by lia. reflexivity.
  - rewrite !Repeat_nonneg by lia. simpl.
    destruct (Nat.ltb_spec (Z.to_nat (p * 24 / 100)) 24); [|lia].
    replace (Z.to_nat (24 - p * 24 / 100 - 1)) with (23 - Z.to_nat (p * 24 / 100))%nat by lia.
    by rewrite !str_app_assoc.
Qed.

Lemma length_bar_as_specified (p : Z) :
  0 <= p <= 100 -> String.length (bar_as_specified p) = 24%nat.
Proof.
  intros Hp. unfold bar_as_specified.
  assert (0 <= p * 24 / 100 <= 24) as Hpos.
  { split; [apply Z.div_pos; lia|]. apply Z.div_le_upper_bound; lia. }
  rewrite str_length_app, length_replicate_byte.
  destruct (Nat.ltb_spec (Z.to_nat (p * 24 / 100)) 24).
  - rewrite str_length_app, length_replicate_byte. simpl. lia.
  - simpl. lia.
Qed.

(** C8. For a percentage [p] between 0 and 100 the rendered bar is
    ["["], then a bar of exactly 24 characters, then ["]"]; the bar consists
    of [floor(p*24/100)] characters [=], then a single [>] head unless the
    completed width has reached 24, which happens exactly at 100, then
    blanks.  At 0 it is ["[>"], 23 blanks and ["]"]; at 100 it is ["["],
    24 [=] and ["]"]. *)
Theorem barArrow_in_range (p : Z) :
  0 <= p <= 100 ->
  fileupload.barArrow p = Some ("[" +:+ bar_as_specified p +:+ "]")
  /\ String.length (bar_as_specified p) = 24%nat
  /\ (p * 24 / 100 = 24 <-> p = 100)
  /\ fileupload.barArrow 0 = Some "[>                       ]"
  /\ fileupload.barArrow 100 = Some "[========================]".
Proof.
  intros Hp. split; [by apply barArrow_clamped|].
  split; [by apply length_bar_as_specified|].
  split; [|split; reflexivity].
  split.
  - intros H. assert (p * 24 / 100 < 24 \/ p = 100) as [?|?]; [|lia|done].
    destruct (decide (p = 100)); [by right|left].
    apply Z.div_lt_upper_bound; lia.
  - intros ->. reflexivity.
Qed.

Lemma barArrow_in_range_witness :
  fileupload.barArrow 50 = Some ("[" +:+ bar_as_specified 50 +:+ "]")
  /\ String.length (bar_as_specified 50) = 24%nat
  /\ (50 * 24 / 100 = 24 <-> 50 = 100)
  /\ fileupload.barArrow 0 = Some "[>                       ]"
  /\ fileupload.barArrow 100 = Some "[========================]".
Proof. apply (barArrow_in_range 50). lia. Defined.

(** C10. The renderer is total: for every integer [pct] it returns, without
    panicking, ["["], a bar and ["]"], 26 characters in all, and its result
    is that for [pct] clamped to the range from 0 to 100. *)
Theorem barArrow_total (pct : Z) :
  exists bar : string,
    fileupload.barArrow pct = Some ("[" +:+ bar +:+ "]")
    /\ String.length bar = 24%nat
    /\ String.length ("[" +:+ bar +:+ "]") = 26%nat
    /\ fileupload.barArrow pct = fileupload.barArrow (Z.max 0 (Z.min 100 pct))
    /\ fileupload.barArrow (Z.min pct 0) = fileupload.barArrow 0
    /\ fileupload.barArrow (Z.max pct 100) = fileupload.barArrow 100.
Proof.
  assert (forall q, fileupload.barArrow q = fileupload.barArrow (Z.max 0 (Z.min 100 q))) as Hclamp.
  { intros q. unfold fileupload.barArrow.
    destruct (Z.ltb_spec q 0), (Z.ltb_spec (Z.max 0 (Z.min 100 q)) 0); try lia.
    - destruct (Z.gtb_spec 0 100); [lia|].
      destruct (Z.gtb_spec (Z.max 0 (Z.min 100 q)) 100); [lia|].
      by replace (Z.max 0 (Z.min 100 q)) with 0 by lia.
    - destruct (Z.gtb_spec q 100), (Z.gtb_spec (Z.max 0 (Z.min 100 q)) 100); try lia.
      + by replace (Z.max 0 (Z.min 100 q)) with 100 by lia.
      + by replace (Z.max 0 (Z.min 100 q)) with q by lia. }
  exists (bar_as_specified (Z.max 0 (Z.min 100 pct))).
  assert (0 <= Z.max 0 (Z.min 100 pct) <= 100) as Hr by lia.
  split; [rewrite Hclamp; by apply barArrow_clamped|].
  split; [by apply length_bar_as_specified|].
  split.
  { rewrite !str_length_app, length_bar_as_specified by done. reflexivity. }
  split; [apply Hclamp|].
  split.
  - rewrite Hclamp. by replace (Z.max 0 (Z.min 100 (Z.min pct 0))) with 0 by lia.
  - rewrite Hclamp. by replace (Z.max 0 (Z.min 100 (Z.max pct 100))) with 100 by lia.
Qed.

(** ** The spinner controller *)

Section spinner_store.
Import config.
Implicit Types (st : list Spinner) (l : nat) (set : list handle).

Lemma Active_Stop st l l' :
  Active (Stop l' st) l = Active st l && negb (bool_decide (l = l')).
Proof.
  unfold Active, Stop. destruct (decide (l = l')) as [->|Hne].
  - rewrite list_lookup_alter_eq, bool_decide_true by done.
    destruct (st !! l'); simpl; [by rewrite andb_false_r|done].
  - rewrite list_lookup_alter_ne, bool_decide_false by done.
    by rewrite andb_true_r.
Qed.

Lemma Active_Start st l l' :
  Active (Start l' st) l
  = Active st l || (bool_decide (l = l') && bool_decide (l < length st)%nat).
Proof.
  unfold Active, Start. destruct (decide (l = l')) as [->|Hne].
  - rewrite list_lookup_alter_eq, (bool_decide_true (l' = l')) by done.
    destruct (st !! l') as [s|] eqn:Hl; simpl.
    + apply lookup_lt_Some in Hl. rewrite bool_decide_true by done.
      by rewrite orb_true_r.
    + apply lookup_ge_None in Hl. rewrite bool_decide_false by lia. done.
  - rewrite list_lookup_alter_ne, (bool_decide_false (l = l')) by done.
    by rewrite orb_false_r.
Qed.

Lemma length_pause_all set st :
  length (foldl pause_one st set) = length st.
Proof.
  revert st. induction set as [|[l|] set IH]; intros st; simpl; [done| |by rewrite IH].
  rewrite IH. unfold Stop. destruct (Active st l); [apply length_alter|done].
Qed.

Lemma length_resume_all set st :
  length (foldl resume_one st set) = length st.
Proof.
  revert st. induction set as [|[l|] set IH]; intros st; simpl; [done| |by rewrite IH].
  rewrite IH. unfold Start. destruct (negb (Active st l)); [apply length_alter|done].
Qed.

Lemma Active_pause_all set st l :
  Active (foldl pause_one st set) l
  = Active st l && negb (bool_decide (Some l ∈ set)).
Proof.
  revert st. induction set as [|s set IH]; intros st; simpl.
  - by rewrite andb_true_r.
  - rewrite IH. rewrite (bool_decide_ext (Some l ∈ s :: set) (Some l = s ∨ Some l ∈ set))
      by apply elem_of_cons.
    rewrite bool_decide_or, negb_orb, andb_assoc. f_equal.
    destruct s as [l'|]; simpl.
    + rewrite (bool_decide_ext (Some l = Some l') (l = l')) by naive_solver.
      destruct (Active st l') eqn:Hl'; [apply Active_Stop|].
      destruct (decide (l = l')) as [->|Hne].
      * rewrite Hl'. done.
      * rewrite bool_decide_false by done. by rewrite andb_true_r.
    + by rewrite andb_true_r.
Qed.

Lemma Active_resume_all set st l :
  Active (foldl resume_one st set) l
  = Active st l
    || (bool_decide (Some l ∈ set) && bool_decide (l < length st)%nat).
Proof.
  revert st. induction set as [|s set IH]; intros st; simpl.
  - by rewrite orb_false_r.
  - rewrite IH. rewrite (bool_decide_ext (Some l ∈ s :: set) (Some l = s ∨ Some l ∈ set))
      by apply elem_of_cons.
    rewrite bool_decide_or.
    destruct s as [l'|]; simpl.
    + rewrite (bool_decide_ext (Some l = Some l') (l = l')) by naive_solver.
      destruct (Active st l') eqn:Hl'; simpl.
      * destruct (decide (l = l')) as [->|Hne].
        -- rewrite Hl'. done.
        -- rewrite (bool_decide_false (l = l')) by done. done.
      * rewrite Active_Start. unfold Start. rewrite length_alter.
        destruct (Active st l), (bool_decide (l = l')),
          (bool_decide (Some l ∈ set)), (bool_decide (l < length st)%nat); done.
    + done.
Qed.

End spinner_store.

Lemma elem_of_List_filter {A : Type} (f : A -> bool) (l : list A) (x : A) :
  x ∈ List.filter f l <-> f x = true /\ x ∈ l.
Proof.
  induction l as [|y l IH]; simpl.
  - split; [by intros ?%elem_of_nil|by intros [_ ?%elem_of_nil]].
  - destruct (f y) eqn:Hy; rewrite ?elem_of_cons, IH.
    + split; [intros [->|[? ?]]; auto|intros [? [->|?]]; auto].
    + split; [intros [? ?]; auto|intros [? [->|?]]; [congruence|auto]].
Qed.

Lemma NoDup_List_filter {A : Type} (f : A -> bool) (l : list A) :
  NoDup l -> NoDup (List.filter f l).
Proof.
  induction 1 as [|y l Hy Hl IH]; simpl; [constructor|].
  destruct (f y); [|done]. constructor; [|done].
  rewrite elem_of_List_filter. by intros [_ ?].
Qed.

(** The spinners of a well-formed active set, in the order of the store. *)
Lemma active_set_listed (c : config.Config) :
  well_formed c = true ->
  Some <$> List.filter (in_active_set c) (seq 0 (length (config.store c)))
  ≡ₚ config.activeSpinners c.
Proof.
  unfold well_formed. intros [Hall Hnd%bool_decide_eq_true]%andb_true_iff.
  apply NoDup_Permutation; [|done|].
  - apply (NoDup_fmap_2 Some), NoDup_List_filter, NoDup_seq.
  - intros h. rewrite list_elem_of_fmap. split.
    + intros (l & -> & Hl). apply elem_of_List_filter in Hl as [Hl _].
      by apply bool_decide_eq_true in Hl.
    + intros Hh. apply Is_true_true in Hall.
      rewrite forallb_True, Forall_forall in Hall. pose proof (Hall h Hh) as Hal.
      destruct h as [l|]; [|done]. exists l. split; [done|].
      apply elem_of_List_filter. split.
      * by apply bool_decide_eq_true.
      * apply elem_of_seq. simpl in Hal.
        apply Is_true_true, Nat.ltb_lt in Hal. lia.
Qed.

(** When every spinner of a well-formed active set is animating, the
    running spinners of the set are as many as the set has entries. *)
Lemma running_of_set_count (c : config.Config) :
  well_formed c = true -> all_running c = true ->
  length (List.filter (fun l => running c l && in_active_set c l)
                      (seq 0 (length (config.store c))))
  = length (config.activeSpinners c).
Proof.
  intros Hwf Hrun. rewrite <- (Permutation_length (active_set_listed c Hwf)).
  rewrite length_fmap. f_equal. apply filter_ext. intros l.
  destruct (in_active_set c l) eqn:Hl; [|by rewrite andb_false_r].
  rewrite andb_true_r. apply bool_decide_eq_true in Hl.
  unfold all_running in Hrun. apply Is_true_true in Hrun.
  rewrite forallb_True, Forall_forall in Hrun.
  apply Is_true_true. apply (Hrun (Some l) Hl).
Qed.

(** C9, as the code has it.  [PauseActiveSpinners] leaves the active set
    as it is, returns the number of handles in that set, and afterwards a
    spinner runs exactly if it ran before and is not in the set; the
    spinners it halted are the running ones of the set, and when the set is
    well formed (no nil entry, no handle twice, every handle that of a
    spinner of the store) and all its spinners were running, the number
    returned is the number of spinners halted.
    [ResumePausedSpinners] leaves the set as it is, and afterwards a
    spinner runs exactly if it ran before or is in the set.  Pausing and
    then resuming therefore leaves the set unchanged, leaves every spinner
    outside the set as it was, and has every spinner of the set running. *)
Theorem pause_resume_active_spinners (c : config.Config) :
  let paused := (config.PauseActiveSpinners c).2 in
  let resumed := config.ResumePausedSpinners c in
  let both := config.ResumePausedSpinners paused in
  (config.activeSpinners paused = config.activeSpinners c
   /\ (config.PauseActiveSpinners c).1 = length (config.activeSpinners c)
   /\ (forall l, running paused l = running c l && negb (in_active_set c l))
   /\ halted c paused
      = List.filter (fun l => running c l && in_active_set c l)
                    (seq 0 (length (config.store c)))
   /\ (well_formed c = true -> all_running c = true ->
       (config.PauseActiveSpinners c).1 = length (halted c paused)))
  /\ (config.activeSpinners resumed = config.activeSpinners c
      /\ forall l, running resumed l
                   = running c l
                     || (in_active_set c l
                         && bool_decide (l < length (config.store c))%nat))
  /\ (config.activeSpinners both = config.activeSpinners c
      /\ forall l, running both l
                   = if in_active_set c l
                     then bool_decide (l < length (config.store c))%nat
                     else running c l).
Proof.
  assert (forall l, running (config.PauseActiveSpinners c).2 l
                    = running c l && negb (in_active_set c l)) as Hpause.
  { intros l. apply Active_pause_all. }
  assert (forall c' l, running (config.ResumePausedSpinners c') l
                    = running c' l
                      || (in_active_set c' l
                          && bool_decide (l < length (config.store c'))%nat))
    as Hresume.
  { intros c' l. apply Active_resume_all. }
  assert (halted c (config.PauseActiveSpinners c).2
          = List.filter (fun l => running c l && in_active_set c l)
                        (seq 0 (length (config.store c)))) as Hhalted.
  { unfold halted. apply filter_ext. intros l. rewrite Hpause.
    destruct (running c l), (in_active_set c l); done. }
  assert (well_formed c = true -> all_running c = true ->
          (config.PauseActiveSpinners c).1
          = length (halted c (config.PauseActiveSpinners c).2)) as Hcount.
  { intros Hwf Hrun. by rewrite Hhalted, running_of_set_count. }
  simpl. split; [|split].
  - split; [done|]. split; [done|]. split; [apply Hpause|].
    split; [apply Hhalted|]. apply Hcount.
  - split; [done|]. intros l. apply Hresume.
  - split; [done|]. intros l.
    change (config.with_store c _) with (config.PauseActiveSpinners c).2.
    rewrite Hresume, Hpause.
    unfold in_active_set at 2. simpl. fold (in_active_set c l).
    rewrite length_pause_all.
    destruct (in_active_set c l), (running c l),
      (bool_decide (l < length (config.store c))%nat); done.
Qed.

Lemma pause_resume_active_spinners_witness :
  (config.PauseActiveSpinners two_spinners).1
  = length (halted two_spinners (config.PauseActiveSpinners two_spinners).2).
Proof.
  destruct (pause_resume_active_spinners two_spinners)
    as ((_ & _ & _ & _ & Hcount) & _).
  apply Hcount; reflexivity.
Defined.

(** C9, as it is worded, fails on the count: with one handle in the active
    set that has been paused already, [PauseActiveSpinners] returns 1 and
    halts no spinner. *)
Lemma PauseActiveSpinners_count_counterexample :
  (config.PauseActiveSpinners paused_config).1 = 1%nat
  /\ halted paused_config (config.PauseActiveSpinners paused_config).2 = []
  /\ (config.PauseActiveSpinners paused_config).1
     <> length (halted paused_config (config.PauseActiveSpinners paused_config).2).
Proof. repeat split; vm_compute; congruence. Qed.

(** ** The resolver *)

Lemma Join_two (a b : string) : strings.Join [a; b] "" = a +:+ b.
Proof. reflexivity. Qed.

(** C1. When the lower-cased first token is not registered and a second
    token was supplied, the resolver looks up the lower-cased concatenation
    of the first two tokens; if that is registered, the name resolved is
    this concatenation and the arguments are the tokens after the first
    two.  The handler then renders help for that name if [-h] occurs among
    the tokens, and otherwise validates and runs the command found, with
    those arguments. *)
Theorem resolve_two_tokens (env : api.Env) (hasShell : bool)
  (cache : gmap string api.API) (first second : string) (rest : list string)
  (found : api.API) :
  cache !! strings.ToLower first = None ->
  cache !! strings.ToLower (first +:+ second) = Some found ->
  api.resolve cache (first :: second :: rest)
  = (strings.ToLower (first +:+ second), rest)
  /\ api.Handle env (api.mkRequest (first :: second :: rest) hasShell cache)
     = if existsb (fun arg => String.eqb arg "-h") (first :: second :: rest)
       then
         let args := strings.ToLower (first +:+ second) :: second :: rest in
         ([api.Help args], api.helpError env args)
       else api.run env hasShell found rest.
Proof.
  intros Hfirst Hboth.
  assert (api.resolve cache (first :: second :: rest)
          = (strings.ToLower (first +:+ second), rest)) as Hres.
  { unfold api.resolve. simpl hd. rewrite Hfirst. reflexivity. }
  split; [exact Hres|].
  unfold api.Handle. cbn [api.Args api.Cache api.HasShell]. rewrite Hres.
  destruct (existsb _ _); [reflexivity|]. by rewrite Hboth.
Qed.

Lemma resolve_two_tokens_witness :
  api.resolve users_cache ["list"; "Users"; "account=admin"]
  = ("listusers", ["account=admin"]).
Proof.
  refine (proj1 (resolve_two_tokens (api.mkEnv (fun _ _ _ => (None, None)) (fun _ => None))
                   true users_cache "list" "Users" ["account=admin"] listUsers _ _));
    reflexivity.
Defined.

(** ** The argument validator *)

Lemma provided_loop_existsb (required : string) (apiArgs : list string) :
  api.provided_loop required apiArgs = existsb (satisfies required) apiArgs.
Proof.
  unfold api.provided_loop.
  enough (forall acc,
            foldl (fun provided arg =>
                     if strings.Contains arg "=" && strings.HasPrefix arg required
                     then true else provided) acc apiArgs
            = acc || existsb (satisfies required) apiArgs) as H by apply H.
  induction apiArgs as [|arg apiArgs IH]; intros acc; simpl.
  - by rewrite orb_false_r.
  - rewrite IH. unfold satisfies at 2.
    destruct (strings.Contains arg "=" && strings.HasPrefix arg required), acc; done.
Qed.

Lemma ReplaceAll_idemp (s : string) (old : ascii) :
  strings.ReplaceAll (strings.ReplaceAll s old "") old ""
  = strings.ReplaceAll s old "".
Proof.
  induction s as [|c s IH]; simpl; [done|].
  destruct (Ascii.eqb c old) eqn:Hc; [by rewrite str_app_nil_l|].
  simpl. by rewrite Hc, IH.
Qed.

Lemma ReplaceAll_app (s t : string) (old : ascii) :
  strings.ReplaceAll (s +:+ t) old ""
  = strings.ReplaceAll s old "" +:+ strings.ReplaceAll t old "".
Proof.
  induction s as [|c s IH]; [reflexivity|].
  rewrite str_app_cons. simpl. destruct (Ascii.eqb c old).
  - by rewrite !str_app_nil_l.
  - by rewrite str_app_cons, IH.
Qed.

Lemma HasPrefix_nil (s : string) : strings.HasPrefix s "" = true.
Proof. by destruct s. Qed.

Lemma ReplaceAll_absent (s : string) :
  strings.Contains s "=" = false -> strings.ReplaceAll s "=" "" = s.
Proof.
  induction s as [|c s IH]; [done|]. simpl.
  destruct (Ascii.eqb c "="); [done|].
  simpl. intros H. by rewrite IH.
Qed.

Lemma missing_loop_filter (requiredArgs apiArgs : list string) :
  api.missing_loop requiredArgs apiArgs
  = missing_as_specified requiredArgs apiArgs.
Proof.
  unfold api.missing_loop, missing_as_specified.
  enough (forall acc,
            foldl (fun missingArgs required =>
                     let required := strings.ReplaceAll required "=" "" in
                     if negb (api.provided_loop required apiArgs)
                     then missingArgs ++ [strings.ReplaceAll required "=" ""]
                     else missingArgs) acc requiredArgs
            = acc ++ List.filter (fun name => negb (existsb (satisfies name) apiArgs))
                                 (map required_name requiredArgs)) as H by apply H.
  induction requiredArgs as [|required requiredArgs IH]; intros acc; simpl.
  - by rewrite List.app_nil_r.
  - rewrite IH, provided_loop_existsb, ReplaceAll_idemp. unfold required_name at 2.
    destruct (negb _); [by rewrite <- List.app_assoc|done].
Qed.

(** C2, as the code has it.  The name checked and reported for a registry
    token is the token with every [=] removed, which for a token [n=] is
    [n] when [n] holds no [=].  The names reported missing are, in
    registry order, those for which no remaining token both contains [=]
    and starts with the name; the match is on the prefix, so [idx=5]
    satisfies [id], and for the registry tokens [id=], [name=] and the
    token [id=5] exactly [name] is reported.  When a name is missing the
    handler prints the names and returns without calling the API. *)
Theorem missing_arguments (env : api.Env) (hasShell : bool) (a : api.API)
  (apiArgs : list string) :
  let missing := api.missing_loop (api.RequiredArgs a) apiArgs in
  missing = missing_as_specified (api.RequiredArgs a) apiArgs
  /\ (forall name,
        name ∈ missing
        <-> name ∈ map required_name (api.RequiredArgs a)
            /\ ~ exists arg, arg ∈ apiArgs
                             /\ strings.Contains arg "=" = true
                             /\ strings.HasPrefix arg name = true)
  /\ (forall n, required_name (n +:+ "=")
                = if strings.Contains n "=" then required_name n else n)
  /\ api.missing_loop ["id="] ["idx=5"] = []
  /\ api.missing_loop ["id="; "name="] ["id=5"] = ["name"]
  /\ match missing with
     | [] => True
     | _ :: _ =>
         api.run env hasShell a apiArgs
         = ([api.Stdout ("💩 Missing required parameters:  "
                        +:+ strings.Join missing ", " +:+ nl)], None)
     end.
Proof.
  intros missing. subst missing. split; [apply missing_loop_filter|].
  split.
  { intros name. rewrite missing_loop_filter. unfold missing_as_specified.
    rewrite !list_elem_of_In, filter_In, negb_true_iff, <- not_true_iff_false.
    rewrite existsb_exists. unfold satisfies.
    setoid_rewrite andb_true_iff. setoid_rewrite list_elem_of_In. done. }
  split.
  { intros n. unfold required_name. rewrite ReplaceAll_app.
    change (strings.ReplaceAll "=" "=" "") with "". rewrite str_app_nil_r.
    destruct (strings.Contains n "=") eqn:Hn; [done|by apply ReplaceAll_absent]. }
  split; [reflexivity|]. split; [reflexivity|].
  unfold api.run.
  destruct (api.missing_loop (api.RequiredArgs a) apiArgs); done.
Qed.

(** C2, as it is worded, fails on the name: for the registry token
    [a=b=] the handler reports [ab], not [a=b]. *)
Lemma missing_name_counterexample :
  api.missing_loop ["a=b="] [] = ["ab"]
  /\ missing_as_worded ["a=b="] [] = ["a=b"]
  /\ api.missing_loop ["a=b="] [] <> missing_as_worded ["a=b="] [].
Proof. repeat split; vm_compute; congruence. Qed.

(** ** The upload-eligible API names *)

(** C6, at [getUploadParamsForTemplate].  With a shell attached and a
    response that is not empty, the handler calls the API and prints the
    result, and does not start the upload prompt: the third name of its
    list is [getuploadparamsfotemplate].  The first revision of
    [PromptAndUploadFileIfNeeded] returns before its prompt for the same
    reason.  The names for ISO and for volume, and the misspelt name
    [getUploadParamsFoTemplate], do reach the prompt. *)
Theorem template_upload_not_prompted :
  api.Handle template_env template_request
  = ([api.Call "getUploadParamsForTemplate" ["name=t1"] false;
      api.Rendered upload_response [] []], None)
  /\ (forall response, api.upload_follow_up true template_api response = [])
  /\ fileupload_v0.reaches_prompt true "getUploadParamsForTemplate" = false
  /\ fileupload_v0.reaches_prompt true "GETUPLOADPARAMSFORTEMPLATE" = false
  /\ fileupload_v0.reaches_prompt true "getUploadParamsForIso" = true
  /\ fileupload_v0.reaches_prompt true "getUploadParamsForVolume" = true
  /\ fileupload_v0.reaches_prompt true "getUploadParamsFoTemplate" = true
  /\ api.upload_follow_up true (api.mkAPI "getUploadParamsFoTemplate" [] false)
                          upload_response
     = [api.PromptForFileUpload "getuploadparamsfotemplate" upload_response].
Proof. repeat split; vm_compute; reflexivity. Qed.

(** ** Validation of the upload credentials *)

(** [UploadFiles] on every response that lacks valid credentials: one line
    is printed and nothing else is done, unless the value under the key is
    nil, on which the function panics. *)
Lemma UploadFiles_rejects (env : fileupload.Env) (api : string)
  (response : gmap string iface) (validFiles : list string)
  (w : fileupload.World) :
  match response !! "getuploadparams" with
  | None =>
      fileupload.UploadFiles env api response validFiles w
      = fileupload.Returned (fileupload.emit fileupload.invalid_format w)
  | Some INil =>
      fileupload.UploadFiles env api response validFiles w
      = fileupload.Panicked w
  | Some (IMap params) =>
      match List.find (fun key => negb (fileupload.has_key params key))
                      fileupload.requiredKeys with
      | Some key =>
          fileupload.UploadFiles env api response validFiles w
          = fileupload.Returned (fileupload.emit (fileupload.missing_key key) w)
      | None => True
      end
  | Some _ =>
      fileupload.UploadFiles env api response validFiles w
      = fileupload.Returned (fileupload.emit fileupload.invalid_format w)
  end.
Proof.
  unfold fileupload.UploadFiles.
  destruct (response !! "getuploadparams") as [[| | | | |params]|]; try reflexivity.
  destruct (List.find (fun key => negb (fileupload.has_key params key))
                      fileupload.requiredKeys); done.
Qed.

(** C4, at a response whose [getuploadparams] is nil.  The key is present
    and its value is not a mapping; [UploadFiles] panics on it, whatever
    the files are, and prints no report. *)
Theorem UploadFiles_nil_params_panics (env : fileupload.Env) (api : string)
  (validFiles : list string) (w : fileupload.World) :
  nil_params_response !! "getuploadparams" = Some INil
  /\ reflect.TypeOf INil = None
  /\ fileupload.UploadFiles env api nil_params_response validFiles w
     = fileupload.Panicked w.
Proof. repeat split. Qed.

(** ** File-path validation *)

Lemma Split_cons (s : string) (sep : ascii) :
  exists piece pieces, strings.Split s sep = piece :: pieces.
Proof.
  induction s as [|c s (piece & pieces & IH)]; simpl; [by eauto|].
  destruct (Ascii.eqb c sep); [by eauto|]. rewrite IH. by eauto.
Qed.

Lemma fields_from_Split (sep : ascii) (s : string) (cur : option string) :
  cur <> Some "" ->
  strings.fields_from (fun r => Ascii.eqb r sep) s cur
  = List.filter (fun p => negb (String.eqb p ""))
      match strings.Split s sep with
      | piece :: pieces => (default "" cur +:+ piece) :: pieces
      | [] => []
      end.
Proof.
  revert cur. induction s as [|c s IH]; intros cur Hcur; simpl.
  - rewrite str_app_nil_r. destruct cur as [[|c fld]|]; done.
  - destruct (Ascii.eqb c sep) eqn:Hc.
    + rewrite str_app_nil_r, (IH None) by done.
      destruct (Split_cons s sep) as (piece & pieces & ->). simpl.
      destruct cur as [[|c' fld]|]; done.
    + rewrite IH.
      * destruct (Split_cons s sep) as (piece & pieces & ->). simpl.
        by rewrite str_app_assoc, str_app_cons, str_app_nil_l.
      * destruct cur as [[|c' fld]|]; done.
Qed.

Lemma FieldsFunc_Split (sep : ascii) (s : string) :
  strings.FieldsFunc s (fun r => Ascii.eqb r sep)
  = List.filter (fun p => negb (String.eqb p "")) (strings.Split s sep).
Proof.
  unfold strings.FieldsFunc. rewrite fields_from_Split by done.
  by destruct (Split_cons s sep) as (piece & pieces & ->).
Qed.

Lemma trimmed_fields (l : list string) :
  List.filter (fun p => negb (String.eqb p ""))
    (map strings.TrimSpace (List.filter (fun p => negb (String.eqb p "")) l))
  = List.filter (fun p => negb (String.eqb p "")) (map strings.TrimSpace l).
Proof.
  induction l as [|p l IH]; simpl; [done|].
  destruct (String.eqb_spec p "") as [->|Hp]; simpl; [done|].
  by rewrite IH.
Qed.

Lemma validate_loop_spec (env : fileupload.Env) (l missing valid : list string)
  (w : fileupload.World) :
  let paths := List.filter (fun p => negb (String.eqb p ""))
                           (map strings.TrimSpace l) in
  fileupload.validate_loop env l missing valid w
  = (missing ++ List.filter (IsNotExist env) paths,
     valid ++ List.filter (fun p => negb (IsNotExist env p)) paths,
     after w (map fileupload.Stat paths)).
Proof.
  revert missing valid w. induction l as [|p l IH]; intros missing valid [c tr]; simpl.
  - unfold after. simpl. by rewrite !List.app_nil_r.
  - case_bool_decide as Hp.
    + rewrite Hp. simpl. apply IH.
    + destruct (String.eqb_spec (strings.TrimSpace p) "") as [?|_]; [done|].
      simpl.
      assert (IsNotExist env (strings.TrimSpace p)
              = match fileupload.os_Stat env (strings.TrimSpace p) with
                | fileupload.ErrNotExist => true
                | _ => false
                end) as Hd by done.
      destruct (fileupload.os_Stat env (strings.TrimSpace p));
        rewrite IH, Hd; unfold after, fileupload.emit; simpl;
        by rewrite <- !List.app_assoc.
Qed.

(** X20. [ValidateAndGetFileList] calls [os.Stat] once, in order, for each
    entry of the comma-separated input that is not empty after trimming,
    and for nothing else.  If [os.IsNotExist] recognises the error of one
    of these paths, it returns the error listing exactly the paths with
    such an error, and otherwise all the paths, whatever other errors
    [os.Stat] gave; the prompt flow, which passes the token that
    [fmt.Scanln] stored, prints that error and returns, so that no file is
    asked for and no request is sent.  For [" a.txt, ,b.txt "] with
    [b.txt] alone answered with ENOENT, only [a.txt] and [b.txt] are looked
    at and the error lists [b.txt] alone. *)
Theorem ValidateAndGetFileList_spec (env : fileupload.Env)
  (filePaths api : string) (response : gmap string iface)
  (w : fileupload.World) :
  (let paths := candidate_paths filePaths in
   let missing := List.filter (IsNotExist env) paths in
   fileupload.ValidateAndGetFileList env filePaths w
   = (match missing with
      | [] => inl paths
      | _ :: _ => inr (missing_report missing)
      end,
      after w (map fileupload.Stat paths)))
  /\ (let paths := candidate_paths (fmt.Scanln (fileupload.typed env)) in
      let missing := List.filter (IsNotExist env) paths in
      fileupload.PromptAndUploadFilesIfNeeded env api response w
      = if negb (config.HasShell (fileupload.cfg w))
           || negb (fileupload.IsFileUploadAPI env (strings.ToLower api))
        then fileupload.Returned w
        else if String.eqb (fmt.Scanln (fileupload.typed env)) ""
        then fileupload.Returned (after w [prompt_line])
        else
          match missing, paths with
          | _ :: _, _ =>
              fileupload.Returned
                (after w (prompt_line :: map fileupload.Stat paths
                          ++ [fileupload.Stdout (missing_report missing +:+ nl)]))
          | [], [] =>
              fileupload.Returned
                (after w [prompt_line;
                          fileupload.Stdout ("No valid files to upload." +:+ nl)])
          | [], _ :: _ =>
              fileupload.UploadFiles env api response paths
                (after w (prompt_line :: map fileupload.Stat paths))
          end)
  /\ (forall scanned isUpload net,
        fileupload.ValidateAndGetFileList
          (only_b_missing scanned isUpload net) " a.txt, ,b.txt " w
        = (inr "file(s) do not exist or are not accessible: b.txt",
           after w [fileupload.Stat "a.txt"; fileupload.Stat "b.txt"])).
Proof.
  assert (forall env' s w',
            let paths := candidate_paths s in
            let missing := List.filter (IsNotExist env') paths in
            fileupload.ValidateAndGetFileList env' s w'
            = (match missing with
               | [] => inl paths
               | _ :: _ => inr (missing_report missing)
               end,
               after w' (map fileupload.Stat paths))) as Hvalidate.
  { intros env' s w'. unfold fileupload.ValidateAndGetFileList, candidate_paths.
    rewrite validate_loop_spec, FieldsFunc_Split, trimmed_fields. simpl.
    set (paths := List.filter _ (map strings.TrimSpace _)).
    destruct (List.filter (IsNotExist env') paths) as [|m ms] eqn:Hm; simpl; [|done].
    f_equal. f_equal. clear -Hm. induction paths as [|p paths IH]; [done|].
    simpl in *. destruct (IsNotExist env' p); [done|]. simpl. f_equal. by apply IH. }
  split; [apply Hvalidate|]. split; [|intros; apply Hvalidate].
  unfold fileupload.PromptAndUploadFilesIfNeeded.
  destruct (config.HasShell (fileupload.cfg w)); [|done]. simpl.
  destruct (fileupload.IsFileUploadAPI env (strings.ToLower api)); [|done]. simpl.
  case_bool_decide as Hs.
  { rewrite Hs. destruct w; reflexivity. }
  destruct (String.eqb_spec (fmt.Scanln (fileupload.typed env)) "") as [?|_]; [done|].
  rewrite Hvalidate.
  set (paths := candidate_paths (fmt.Scanln (fileupload.typed env))).
  assert (forall evs, after (fileupload.emit prompt_line w) evs = after w (prompt_line :: evs)) as Hafter.
  { intros evs. destruct w. unfold after, fileupload.emit. simpl. by rewrite <- List.app_assoc. }
  destruct (List.filter (IsNotExist env) paths) as [|m ms].
  - destruct paths as [|p ps]; simpl.
    + unfold fileupload.emit, after. destruct w. simpl. by rewrite <- !List.app_assoc.
    + by rewrite Hafter.
  - unfold fileupload.emit at 1. rewrite Hafter. unfold after. simpl.
    by rewrite <- !List.app_assoc.
Qed.

(** C5, at a path under which there is nothing.  With [a.txt] and
    [b.txt] regular files, nothing exists at [a.txt/x], and [os.Stat]
    says so with ENOTDIR.  [ValidateAndGetFileList] returns both paths of
    [a.txt/x,b.txt] as valid and no error, and the prompt flow goes on to
    the batch: it asks for both files and posts [b.txt]. *)
Theorem ValidateAndGetFileList_accepts_absent (w : fileupload.World) :
  nothing_there through_a_file "a.txt/x" = true
  /\ fileupload.ValidateAndGetFileList through_a_file "a.txt/x,b.txt" w
     = (inl ["a.txt/x"; "b.txt"],
        after w [fileupload.Stat "a.txt/x"; fileupload.Stat "b.txt"])
  /\ io (fileupload.trace
           (world_of (fileupload.PromptAndUploadFilesIfNeeded through_a_file
                        "getUploadParamsForIso" upload_response shell_world)))
     = [fileupload.Stat "a.txt/x"; fileupload.Stat "b.txt";
        fileupload.Open "a.txt/x"; fileupload.Open "b.txt";
        fileupload.Post "https://ssvm.example/upload/1" "b.txt" "sig"
                        "2030-01-01T00:00:00Z" "meta"].
Proof.
  split; [reflexivity|]. split; [|by vm_compute].
  unfold fileupload.ValidateAndGetFileList. by rewrite validate_loop_spec.
Qed.

(** ** Double precision on integers *)

(** ** Binary digits *)

Lemma digits2_pos_size (p : positive) : digits2_pos p = Pos.size p.
Proof. induction p as [p IH|p IH|]; simpl; by rewrite ?IH. Qed.

Lemma digits2_pos_bounds (p : positive) :
  2 ^ (Zpos (digits2_pos p) - 1) <= Zpos p < 2 ^ Zpos (digits2_pos p).
Proof.
  rewrite digits2_pos_size. split.
  - pose proof (Pos.size_le p) as H.
    apply Pos2Z.pos_le_pos in H. rewrite Pos2Z.inj_pow in H.
    replace (Zpos (Pos.size p)) with (Z.succ (Zpos (Pos.size p) - 1)) in H by lia.
    rewrite Z.pow_succ_r in H by lia. lia.
  - pose proof (Pos.size_gt p) as H.
    apply Pos2Z.pos_lt_pos in H. by rewrite Pos2Z.inj_pow in H.
Qed.

Lemma digits2_pos_unique (p : positive) (d : Z) :
  2 ^ (d - 1) <= Zpos p < 2 ^ d -> Zpos (digits2_pos p) = d.
Proof.
  intros [Hl Hu]. pose proof (digits2_pos_bounds p) as [Hl' Hu'].
  destruct (Z.lt_trichotomy (Zpos (digits2_pos p)) d) as [Hlt|[?|Hgt]]; [|done|].
  - assert (2 ^ Zpos (digits2_pos p) <= 2 ^ (d - 1)) by (apply Z.pow_le_mono_r; lia).
    lia.
  - assert (0 <= d \/ d < 0) as [Hd|Hd] by lia.
    + assert (2 ^ d <= 2 ^ (Zpos (digits2_pos p) - 1)) by (apply Z.pow_le_mono_r; lia).
      lia.
    + rewrite (Z.pow_neg_r 2 d) in Hu by done. lia.
Qed.

(** ** Shifting to the right *)

Lemma iter_pos_nat {A : Type} (f : A -> A) (p : positive) (x : A) :
  SpecFloat.iter_pos f p x = Nat.iter (Pos.to_nat p) f x.
Proof.
  revert x. induction p as [p IH|p IH|]; intros x; cbn [SpecFloat.iter_pos].
  - rewrite !IH, Pos2Nat.inj_xI.
    replace (S (2 * Pos.to_nat p))%nat
      with (Pos.to_nat p + (Pos.to_nat p + 1))%nat by lia.
    rewrite !Nat.iter_add. done.
  - rewrite !IH, Pos2Nat.inj_xO.
    replace (2 * Pos.to_nat p)%nat with (Pos.to_nat p + Pos.to_nat p)%nat by lia.
    by rewrite Nat.iter_add.
  - done.
Qed.

Lemma shiftl_nat_Z (c : positive) (n : nat) :
  Zpos (Pos.shiftl_nat c n) = Zpos c * 2 ^ Z.of_nat n.
Proof.
  induction n as [|n IH]; [simpl; lia|].
  rewrite Nat2Z.inj_succ, Z.pow_succ_r by lia.
  change (Pos.shiftl_nat c (S n)) with (xO (Pos.shiftl_nat c n)).
  rewrite Pos2Z.inj_xO, IH. lia.
Qed.

Lemma shr_exact (c : positive) (n : nat) :
  Nat.iter n shr_1 (Build_shr_record (Zpos (Pos.shiftl_nat c n)) false false)
  = Build_shr_record (Zpos c) false false.
Proof.
  induction n as [|n IH]; [done|].
  rewrite Nat.iter_succ_r.
  change (Pos.shiftl_nat c (S n)) with (xO (Pos.shiftl_nat c n)).
  exact IH.
Qed.

Lemma shr_shiftl (c : positive) (n : nat) (e : Z) :
  shr (Build_shr_record (Zpos (Pos.shiftl_nat c n)) false false) e (Z.of_nat n)
  = (Build_shr_record (Zpos c) false false, e + Z.of_nat n).
Proof.
  destruct n as [|n].
  - simpl. by rewrite Z.add_0_r.
  - change (Z.of_nat (S n)) with (Zpos (Pos.of_succ_nat n)).
    unfold shr. by rewrite iter_pos_nat, SuccNat2Pos.id_succ, shr_exact.
Qed.

(** ** Rounding *)

Lemma binary_round_aux_eq (sx : bool) (mx ex : Z) (lx : location) :
  binary_round_aux 53 1024 sx mx ex lx
  = let '(mrs, e) := shr_fexp 53 1024 mx ex lx in
    round_finish sx (round_nearest_even (shr_m mrs) (loc_of_shr_record mrs)) e.
Proof. reflexivity. Qed.

Lemma shr_fexp_shift (m : positive) (e : Z) (l : location) :
  -1074 <= Zpos (digits2_pos m) + e - 53 ->
  shr_fexp 53 1024 (Zpos m) e l
  = shr (shr_record_of_loc (Zpos m) l) e (Zpos (digits2_pos m) - 53).
Proof.
  intros H. unfold shr_fexp. f_equal.
  unfold fexp, emin, Zdigits2. lia.
Qed.

Lemma round_finish_53 (sx : bool) (m : positive) (e : Z) :
  Zpos (digits2_pos m) = 53 -> -1074 <= e <= 971 ->
  round_finish sx (Zpos m) e = S754_finite sx m e.
Proof.
  intros Hd He. unfold round_finish.
  rewrite shr_fexp_shift, Hd by lia. simpl.
  destruct (Z.leb_spec e (1024 - 53)); [done|lia].
Qed.

Lemma round_finish_54 (sx : bool) (e : Z) :
  -1074 <= e + 1 <= 971 ->
  round_finish sx (2 ^ 53) e = S754_finite sx (2 ^ 52) (e + 1).
Proof.
  intros He. unfold round_finish.
  change (2 ^ 53) with (Zpos (2 ^ 53)).
  rewrite shr_fexp_shift by (vm_compute (digits2_pos _); lia).
  vm_compute (digits2_pos _). 
  change (Zpos 54 - 53) with 1. unfold shr. 
  vm_compute (SpecFloat.iter_pos _ _ _).
  cbn [shr_m]. destruct (Z.leb_spec (e + 1) (1024 - 53)); [done|lia].
Qed.

Lemma digits_shiftl_nat (c : positive) (n : nat) :
  Zpos (digits2_pos c) = 53 ->
  Zpos (digits2_pos (Pos.shiftl_nat c n)) = 53 + Z.of_nat n.
Proof.
  intros Hd. pose proof (digits2_pos_bounds c) as Hc. rewrite Hd in Hc.
  apply digits2_pos_unique. rewrite shiftl_nat_Z.
  replace (53 + Z.of_nat n - 1) with (52 + Z.of_nat n) by lia.
  rewrite !Z.pow_add_r by lia.
  assert (0 < 2 ^ Z.of_nat n) by (apply Z.pow_pos_nonneg; lia).
  change (53 - 1) with 52 in Hc. nia.
Qed.

Lemma binary_round_aux_exact (c : positive) (n : nat) (e : Z) :
  Zpos (digits2_pos c) = 53 ->
  -1074 <= e + Z.of_nat n <= 971 ->
  binary_round_aux 53 1024 false (Zpos (Pos.shiftl_nat c n)) e loc_Exact
  = S754_finite false c (e + Z.of_nat n).
Proof.
  intros Hd He. rewrite binary_round_aux_eq.
  rewrite shr_fexp_shift by (rewrite digits_shiftl_nat by done; lia).
  rewrite digits_shiftl_nat by done.
  replace (53 + Z.of_nat n - 53) with (Z.of_nat n) by lia.
  cbn [shr_record_of_loc]. rewrite shr_shiftl.
  cbn [shr_m loc_of_shr_record round_nearest_even].
  by apply round_finish_53.
Qed.

(** ** Integers held exactly *)

Lemma iter_xO_Z (p k : positive) :
  Zpos (Pos.iter xO p k) = Zpos p * 2 ^ Zpos k.
Proof.
  induction k as [|k IH] using Pos.peano_ind; [simpl; lia|].
  rewrite Pos.iter_succ, Pos2Z.inj_xO, IH, Pos2Z.inj_succ, Z.pow_succ_r by lia.
  lia.
Qed.

Lemma of_int_holds (z : Z) : 0 < z < 2 ^ 53 -> holds (float64.of_int z) z.
Proof.
  intros Hz. destruct z as [|p|p]; [lia| |lia].
  pose proof (digits2_pos_bounds p) as Hp.
  assert (Zpos (digits2_pos p) <= 53) as Hd.
  { destruct (Z.le_gt_cases (Zpos (digits2_pos p)) 53) as [?|Hgt]; [done|].
    assert (2 ^ 53 <= 2 ^ (Zpos (digits2_pos p) - 1))
      by (apply Z.pow_le_mono_r; lia).
    lia. }
  unfold float64.of_int, binary_normalize, binary_round, shl_align.
  replace (fexp 53 1024 (Zpos (digits2_pos p) + 0) - 0)
    with (Zpos (digits2_pos p) - 53) by (unfold fexp, emin; lia).
  replace (fexp 53 1024 (Zpos (digits2_pos p) + 0))
    with (Zpos (digits2_pos p) - 53) by (unfold fexp, emin; lia).
  destruct (Zpos (digits2_pos p) - 53) as [|k|k] eqn:Hk; [|lia|].
  - exists p, 0. split; [|split; [lia|split; [lia|done]]].
    apply (binary_round_aux_exact p 0 0); [lia|simpl; lia].
  - assert (Zpos (digits2_pos (Pos.iter xO p k)) = 53) as Hd'.
    { apply digits2_pos_unique. rewrite iter_xO_Z.
      replace 53 with (Zpos (digits2_pos p) + Zpos k) at 2 by lia.
      replace (53 - 1) with ((Zpos (digits2_pos p) - 1) + Zpos k) by lia.
      rewrite !Z.pow_add_r by lia.
      assert (0 < 2 ^ Zpos k) by (apply Z.pow_pos_nonneg; lia). nia. }
    exists (Pos.iter xO p k), (Zneg k). split; [|split; [done|split; [lia|]]].
    + rewrite <- (Z.add_0_r (Zneg k)) at 2.
      apply (binary_round_aux_exact (Pos.iter xO p k) 0 (Zneg k)); [done|simpl; lia].
    + rewrite iter_xO_Z.
      assert (2 ^ Zpos k * 2 ^ (Zneg k + 52) = 2 ^ 52) as Hpow.
      { rewrite <- Z.pow_add_r by lia. f_equal. lia. }
      nia.
Qed.

(** Below 2^53 the exponent is not positive. *)
Lemma holds_small (m : positive) (e z : Z) :
  Zpos (digits2_pos m) = 53 -> -52 <= e <= 2 ->
  Zpos m * 2 ^ (e + 52) = z * 2 ^ 52 -> z < 2 ^ 53 ->
  e <= 0 /\ Zpos m = z * 2 ^ (- e).
Proof.
  intros Hd He Hm Hz. pose proof (digits2_pos_bounds m) as Hb. rewrite Hd in Hb.
  change (53 - 1) with 52 in Hb.
  assert (e <= 0) as He0.
  { destruct (Z.le_gt_cases e 0) as [?|Hpos]; [done|].
    assert (2 ^ 53 <= 2 ^ (e + 52)) by (apply Z.pow_le_mono_r; lia).
    assert (0 < 2 ^ 52) by done. nia. }
  split; [done|].
  assert (0 < 2 ^ (e + 52)) as Hp by (apply Z.pow_pos_nonneg; lia).
  apply (Z.mul_reg_r _ _ (2 ^ (e + 52))); [lia|].
  assert (2 ^ (- e) * 2 ^ (e + 52) = 2 ^ 52) as Hpow.
  { rewrite <- Z.pow_add_r by lia. f_equal. lia. }
  nia.
Qed.

(** The hundredfold of an integer is exact below 2^55. *)
Lemma mul_hundred_holds (f : spec_float) (k : Z) :
  holds f k -> 100 * k < 2 ^ 55 ->
  holds (float64.mul f (float64.of_int 100)) (k * 100).
Proof.
  intros (m1 & e1 & -> & Hd1 & He1 & Hm1) Hk.
  destruct (holds_small m1 e1 k) as [He0 Hm1']; [done..|lia|].
  pose proof (digits2_pos_bounds m1) as Hb1. rewrite Hd1 in Hb1.
  change (53 - 1) with 52 in Hb1.
  assert (0 < 2 ^ (- e1)) as Hp1 by (apply Z.pow_pos_nonneg; lia).
  assert (0 < k) as Hk0 by nia.
  assert (float64.of_int 100 = S754_finite false 7036874417766400 (-46)) as ->
    by (by vm_compute).
  unfold float64.mul, SFmul. cbn [xorb].
  set (P := (m1 * 7036874417766400)%positive).
  assert (Zpos P = 25 * k * 2 ^ (48 - e1)) as HP.
  { subst P. rewrite Pos2Z.inj_mul, Hm1'.
    change (Zpos 7036874417766400) with (25 * 2 ^ 48).
    replace (48 - e1) with (- e1 + 48) by lia. rewrite Z.pow_add_r by lia. lia. }
  pose proof (digits2_pos_bounds P) as HbP.
  set (n := Zpos (digits2_pos P) - 53).
  assert (n = Zpos (digits2_pos P) - 53) as Hn by done. clearbody n.
  assert (52 <= n) as Hn52.
  { destruct (Z.le_gt_cases 52 n) as [?|Hlt]; [done|].
    assert (2 ^ Zpos (digits2_pos P) <= 2 ^ 104) by (apply Z.pow_le_mono_r; lia).
    assert (2 ^ 52 * 2 ^ 52 <= Zpos P).
    { subst P. rewrite Pos2Z.inj_mul.
      change (Zpos 7036874417766400) with (25 * 2 ^ 48).
      change (2 ^ 52) with (16 * 2 ^ 48) at 2. nia. }
    assert (2 ^ 104 = 2 ^ 52 * 2 ^ 52) by done. lia. }
  assert (n <= 48 - e1) as Hn48.
  { destruct (Z.le_gt_cases n (48 - e1)) as [?|Hgt]; [done|].
    assert (2 ^ (101 - e1) <= 2 ^ (Zpos (digits2_pos P) - 1))
      by (apply Z.pow_le_mono_r; lia).
    assert (Zpos P < 2 ^ (101 - e1)); [|lia].
    rewrite HP. replace (101 - e1) with (53 + (48 - e1)) by lia.
    rewrite Z.pow_add_r by lia.
    assert (0 < 2 ^ (48 - e1)) by (apply Z.pow_pos_nonneg; lia).
    change (2 ^ 55) with (4 * 2 ^ 53) in Hk. nia. }
  assert (0 < 2 ^ n) as Hpn by (apply Z.pow_pos_nonneg; lia).
  assert (0 < 2 ^ (48 - e1 - n)) as Hpc by (apply Z.pow_pos_nonneg; lia).
  set (c := Z.to_pos (25 * k * 2 ^ (48 - e1 - n))).
  assert (Zpos c = 25 * k * 2 ^ (48 - e1 - n)) as Hc by (subst c; rewrite Z2Pos.id; nia).
  clearbody c.
  assert (Zpos P = Zpos c * 2 ^ n) as HPc.
  { rewrite HP, Hc. replace (48 - e1) with (48 - e1 - n + n) at 1 by lia.
    rewrite Z.pow_add_r by lia. lia. }
  assert (Zpos (digits2_pos c) = 53) as Hdc.
  { apply digits2_pos_unique. change (53 - 1) with 52.
    replace (Zpos (digits2_pos P) - 1) with (52 + n) in HbP by lia.
    replace (Zpos (digits2_pos P)) with (53 + n) in HbP by lia.
    rewrite !Z.pow_add_r in HbP by lia. nia. }
  assert (P = Pos.shiftl_nat c (Z.to_nat n)) as ->.
  { apply Pos2Z.inj. rewrite shiftl_nat_Z, Z2Nat.id by lia. done. }
  rewrite binary_round_aux_exact by (rewrite ?Z2Nat.id by lia; lia).
  rewrite Z2Nat.id by lia.
  exists c, (e1 + -46 + n). split; [done|]. split; [done|]. split; [lia|].
  rewrite Hc.
  assert (2 ^ (48 - e1 - n) * 2 ^ (e1 + -46 + n + 52) = 4 * 2 ^ 52) as Hpow.
  { rewrite <- Z.pow_add_r by lia.
    replace (48 - e1 - n + (e1 + -46 + n + 52)) with 54 by lia. done. }
  nia.
Qed.

(** ** Rounding a quotient *)

Lemma new_location_round_bit (steps k : Z) :
  round_bit (new_location steps k) = true -> steps <= 2 * k.
Proof.
  unfold new_location, new_location_even, new_location_odd.
  destruct (Z.even steps) eqn:Heven; destruct (k =? 0); try done; simpl.
  - destruct (Z.compare_spec (2 * k) steps); [lia|done|lia].
  - destruct (Z.compare_spec (2 * k + 1) steps); [done|done|lia].
Qed.

Lemma round_nearest_even_cases (m : Z) (l : location) :
  round_nearest_even m l = m
  \/ (round_nearest_even m l = m + 1 /\ round_bit l = true).
Proof.
  destruct l as [|[]]; simpl; auto. destruct (Z.even m); auto.
Qed.

Lemma round_finish_near (m e : Z) :
  2 ^ 52 <= m <= 2 ^ 53 -> -1074 <= e -> e + 1 <= 971 ->
  exists (M : positive) (E : Z),
    round_finish false m e = S754_finite false M E
    /\ ((E = e /\ Zpos M = m)
        \/ (E = e + 1 /\ Zpos M = 2 ^ 52 /\ m = 2 ^ 53)).
Proof.
  intros Hm He1 He2. destruct (decide (m = 2 ^ 53)) as [->|Hne].
  - exists (2 ^ 52)%positive, (e + 1). split; [|right; done].
    apply round_finish_54. lia.
  - destruct m as [|p|p]; [lia| |lia].
    exists p, e. split; [|left; done].
    apply round_finish_53; [|lia].
    apply digits2_pos_unique. change (53 - 1) with 52. lia.
Qed.

Lemma round_quotient (q : positive) (e : Z) (l : location) :
  let d := Zpos (digits2_pos q) - 53 in
  0 <= d <= 1 -> -1074 <= e -> e + 2 <= 971 ->
  exists (M : positive) (E m1 : Z),
    binary_round_aux 53 1024 false (Zpos q) e l = S754_finite false M E
    /\ (m1 = Zpos q / 2 ^ d
        \/ (m1 = Zpos q / 2 ^ d + 1
            /\ if decide (d = 0) then round_bit l = true
               else Z.odd (Zpos q) = true))
    /\ ((E = e + d /\ Zpos M = m1)
        \/ (E = e + d + 1 /\ Zpos M = 2 ^ 52 /\ m1 = 2 ^ 53)).
Proof.
  intros d Hd He1 He2. pose proof (digits2_pos_bounds q) as Hq.
  rewrite binary_round_aux_eq, shr_fexp_shift by lia. fold d.
  assert (d = 0 \/ d = 1) as [Hd0|Hd1] by lia.
  - rewrite Hd0 in *. replace (Zpos (digits2_pos q)) with 53 in Hq by lia.
    change (53 - 1) with 52 in Hq.
    cbn [shr]. rewrite Z.pow_0_r, Z.div_1_r.
    assert (loc_of_shr_record (shr_record_of_loc (Zpos q) l) = l) as Hl
      by (by destruct l as [|[]]).
    assert (shr_m (shr_record_of_loc (Zpos q) l) = Zpos q) as Hm
      by (by destruct l as [|[]]).
    rewrite Hl, Hm.
    destruct (round_nearest_even_cases (Zpos q) l) as [Hr|[Hr Hbit]]; rewrite Hr.
    + destruct (round_finish_near (Zpos q) e) as (M & E & -> & HM); [lia..|].
      exists M, E, (Zpos q). split; [done|]. split; [by left|].
      rewrite Z.add_0_r. done.
    + destruct (round_finish_near (Zpos q + 1) e) as (M & E & -> & HM); [lia..|].
      exists M, E, (Zpos q + 1). split; [done|]. split; [right; done|].
      rewrite Z.add_0_r. done.
  - rewrite Hd1 in *. replace (Zpos (digits2_pos q)) with 54 in Hq by lia.
    change (54 - 1) with 53 in Hq. change (2 ^ 1) with 2.
    change (shr ?r e 1) with (shr_1 r, e + 1).
    assert (exists (p : positive) (rb st : bool),
               shr_1 (shr_record_of_loc (Zpos q) l) = Build_shr_record (Zpos p) rb st
               /\ Zpos p = Zpos q / 2
               /\ (rb = true -> Z.odd (Zpos q) = true)) as (p & rb & st & -> & Hp & Hrb).
    { destruct q as [p|p|]; [| |done].
      - exists p. destruct l as [|[]]; do 2 eexists; (split; [reflexivity|]);
          (split; [|done]); apply (Z.div_unique _ 2 _ 1); lia.
      - exists p. destruct l as [|[]]; do 2 eexists; (split; [reflexivity|]);
          (split; [|done]); apply (Z.div_unique _ 2 _ 0); lia. }
    cbn [shr_m]. rewrite <- Hp.
    assert (2 ^ 52 <= Zpos p < 2 ^ 53) as Hpb.
    { rewrite Hp. split.
      - apply Z.div_le_lower_bound; [lia|]. change (2 * 2 ^ 52) with (2 ^ 53). lia.
      - apply Z.div_lt_upper_bound; [lia|]. change (2 * 2 ^ 53) with (2 ^ 54). lia. }
    destruct (round_nearest_even_cases (Zpos p)
                (loc_of_shr_record (Build_shr_record (Zpos p) rb st)))
      as [Hr|[Hr Hbit]]; rewrite Hr.
    + destruct (round_finish_near (Zpos p) (e + 1)) as (M & E & -> & HM); [lia..|].
      exists M, E, (Zpos p). split; [done|]. split; [by left|]. done.
    + destruct (round_finish_near (Zpos p + 1) (e + 1)) as (M & E & -> & HM); [lia..|].
      exists M, E, (Zpos p + 1). split; [done|]. split; [|done].
      right. split; [done|]. apply Hrb. by destruct rb, st.
Qed.

(** ** The quotient of two integers, truncated *)

Lemma SFdiv_core_binary_53 (m1 m2 : positive) (e1 e2 : Z) :
  Zpos (digits2_pos m1) = 53 -> Zpos (digits2_pos m2) = 53 ->
  -1074 <= e1 - e2 - 53 ->
  SFdiv_core_binary 53 1024 (Zpos m1) e1 (Zpos m2) e2
  = (Zpos m1 * 2 ^ 53 / Zpos m2, e1 - e2 - 53,
     new_location (Zpos m2) ((Zpos m1 * 2 ^ 53) mod Zpos m2)).
Proof.
  intros Hd1 Hd2 He. unfold SFdiv_core_binary, Zdigits2. rewrite Hd1, Hd2.
  cbv zeta.
  replace (Z.min (fexp 53 1024 (53 + e1 - (53 + e2))) (e1 - e2))
    with (e1 - e2 - 53) by (unfold fexp, emin; lia).
  replace (e1 - e2 - (e1 - e2 - 53)) with 53 by lia.
  cbv iota. rewrite Z.shiftl_mul_pow2 by lia.
  unfold Z.div, Z.modulo.
  by destruct (Z.div_eucl (Zpos m1 * 2 ^ 53) (Zpos m2)).
Qed.

Lemma div_holds_trunc (f1 f2 : spec_float) (a b : Z) :
  holds f1 a -> holds f2 b -> b < 2 ^ 47 -> a <= 100 * b ->
  float64.to_int (float64.div f1 f2) = Some (a / b).
Proof.
  intros (m1 & e1 & -> & Hd1 & He1 & Hm1) (m2 & e2 & -> & Hd2 & He2' & Hm2') Hb47 Hab.
  destruct (holds_small m2 e2 b) as [He2 Hm2]; [done..|lia|].
  clear Hm2'.
  pose proof (digits2_pos_bounds m1) as Hb1. rewrite Hd1 in Hb1.
  pose proof (digits2_pos_bounds m2) as Hb2. rewrite Hd2 in Hb2.
  change (53 - 1) with 52 in *.
  assert (0 < 2 ^ (e1 + 52)) as Hp1 by (apply Z.pow_pos_nonneg; lia).
  assert (0 < 2 ^ (- e2)) as Hp2 by (apply Z.pow_pos_nonneg; lia).
  assert (0 < a) as Ha by nia. assert (0 < b) as Hb by nia.
  assert (e1 - e2 <= 7) as He12.
  { destruct (Z.le_gt_cases (e1 - e2) 7) as [?|Hgt]; [done|].
    assert (2 ^ (60 + e2) <= 2 ^ (e1 + 52)) by (apply Z.pow_le_mono_r; lia).
    assert (2 ^ (60 + e2) * 2 ^ (- e2) = 2 ^ 60)
      by (rewrite <- Z.pow_add_r by lia; f_equal; lia).
    assert (2 ^ 60 = 128 * 2 ^ 53) by done.
    assert (0 < 2 ^ 52) by done. nia. }
  unfold float64.div, SFdiv. cbn [xorb].
  rewrite SFdiv_core_binary_53 by lia.
  set (X := Zpos m1 * 2 ^ 53).
  (* the quotient of the mantissas *)
  assert (2 ^ 52 <= X / Zpos m2 < 2 ^ 54) as Hq.
  { subst X. split.
    - apply Z.div_le_lower_bound; [lia|].
      change (2 ^ 53) with (2 * 2 ^ 52) in *. nia.
    - apply Z.div_lt_upper_bound; [lia|].
      change (2 ^ 54) with (2 ^ 53 * 2) in *. change (2 ^ 53) with (2 * 2 ^ 52) in *. nia. }
  destruct (X / Zpos m2) as [|q|q] eqn:Hquot; [lia| |lia].
  pose proof (digits2_pos_bounds q) as Hbq.
  assert (0 <= Zpos (digits2_pos q) - 53 <= 1) as Hd.
  { split.
    - destruct (Z.le_gt_cases 53 (Zpos (digits2_pos q))) as [?|Hlt]; [lia|].
      assert (2 ^ Zpos (digits2_pos q) <= 2 ^ 52) by (apply Z.pow_le_mono_r; lia).
      lia.
    - destruct (Z.le_gt_cases (Zpos (digits2_pos q)) 54) as [?|Hgt]; [lia|].
      assert (2 ^ 54 <= 2 ^ (Zpos (digits2_pos q) - 1))
        by (apply Z.pow_le_mono_r; lia).
      lia. }
  destruct (round_quotient q (e1 - e2 - 53) (new_location (Zpos m2) (X mod Zpos m2)))
    as (M & E & r & -> & Hr & HM); [done|lia|lia|].
  set (d := Zpos (digits2_pos q) - 53) in *.
  assert (d = Zpos (digits2_pos q) - 53) as Hddef by done. clearbody d.
  set (j := 53 + e2 - e1 - d).
  assert (j = 53 + e2 - e1 - d) as Hjdef by done. clearbody j.
  assert (0 <= j) as Hj by lia.
  assert (Zpos m1 * 2 ^ 53 = a * 2 ^ (53 - e1)) as Hm1'.
  { apply (Z.mul_reg_r _ _ (2 ^ (e1 + 52))); [lia|].
    assert (2 ^ (53 - e1) * 2 ^ (e1 + 52) = 2 ^ 52 * 2 ^ 53) as Hpow.
    { rewrite <- !Z.pow_add_r by lia. f_equal. lia. }
    nia. }
  assert (0 < 2 ^ j) as HT by (apply Z.pow_pos_nonneg; lia).
  assert (0 < 2 ^ d) as HD by (apply Z.pow_pos_nonneg; lia).
  (* in terms of the integers *)
  assert (X = a * 2 ^ j * 2 ^ d * 2 ^ (- e2)) as HX.
  { subst X. rewrite Hm1', <- !Z.mul_assoc, <- !Z.pow_add_r by lia.
    f_equal. f_equal. lia. }
  assert (Zpos q = a * 2 ^ j * 2 ^ d / b) as Hq'.
  { rewrite <- Hquot, HX, Hm2. apply Z.div_mul_cancel_r; lia. }
  assert (Zpos q / 2 ^ d = a * 2 ^ j / b) as Hm'.
  { rewrite Hq', Z.div_div by lia. apply Z.div_mul_cancel_r; lia. }
  assert (X mod Zpos m2 = (a * 2 ^ j * 2 ^ d) mod b * 2 ^ (- e2)) as Hrem.
  { rewrite HX, Hm2. apply Z.mul_mod_distr_r; lia. }
  set (m' := a * 2 ^ j / b) in *.
  assert (2 ^ 52 <= m') as Hm'52.
  { rewrite <- Hm'. apply Z.div_le_lower_bound; [lia|].
    assert (d = 0 \/ d = 1) as [Hd0|Hd1'] by lia.
    - rewrite Hd0. change (2 ^ 0) with 1. lia.
    - rewrite Hd1'. change (2 ^ 1) with 2. change (2 * 2 ^ 52) with (2 ^ 53).
      replace (Zpos (digits2_pos q) - 1) with 53 in Hbq by lia. lia. }
  assert (m' <= 100 * 2 ^ j) as Hm'100.
  { subst m'. apply Z.div_le_upper_bound; [lia|]. nia. }
  assert (2 ^ 46 <= 2 ^ j) as HT46.
  { apply Z.pow_le_mono_r; [lia|].
    destruct (Z.le_gt_cases 46 j) as [?|Hlt]; [done|].
    assert (2 ^ j <= 2 ^ 45) by (apply Z.pow_le_mono_r; lia).
    assert (100 * 2 ^ 45 < 2 ^ 52) by done. lia. }
  assert (46 <= j) as Hj46.
  { destruct (Z.le_gt_cases 46 j) as [?|Hlt]; [done|].
    assert (2 ^ j <= 2 ^ 45) by (apply Z.pow_le_mono_r; lia).
    assert (2 ^ 45 < 2 ^ 46) by done. lia. }
  assert (m' / 2 ^ j = a / b) as Hfloor.
  { subst m'. rewrite Z.div_div by lia. apply Z.div_mul_cancel_r; lia. }
  assert (r / 2 ^ j = a / b) as Hresult.
  { destruct Hr as [->|[-> Hup]]; rewrite Hm'; [done|].
    assert (2 * (m' + 1) * b - 2 * a * 2 ^ j <= b) as Hhalf.
    { pose proof (Z.div_mod (a * 2 ^ j) b ltac:(lia)) as Hdm. fold m' in Hdm.
      pose proof (Z.mod_pos_bound (a * 2 ^ j) b Hb) as Hmb.
      destruct (decide (d = 0)) as [Hd0|Hd0].
      - apply new_location_round_bit in Hup.
        rewrite Hrem, Hm2, Hd0 in Hup. change (2 ^ 0) with 1 in Hup.
        rewrite Z.mul_1_r in Hup. nia.
      - assert (d = 1) as Hd1' by lia. rewrite Hd1' in *.
        change (2 ^ 1) with 2 in *.
        pose proof (Z.div_mod (a * 2 ^ j * 2) b ltac:(lia)) as Hdm2.
        rewrite <- Hq' in Hdm2.
        pose proof (Z.mod_pos_bound (a * 2 ^ j * 2) b Hb) as Hmb2.
        pose proof (Z.div_mod (Zpos q) 2 ltac:(lia)) as Hq2.
        rewrite Hm' in Hq2.
        assert (Zpos q mod 2 = 1) as Hodd.
        { rewrite Zmod_odd, Hup. done. }
        lia. }
    pose proof (Z.div_mod m' (2 ^ j) ltac:(lia)) as Hdm'.
    pose proof (Z.mod_pos_bound m' (2 ^ j) HT) as Hmb'.
    rewrite Hfloor in Hdm'.
    pose proof (Z.mul_succ_div_gt a b Hb) as Hgt.
    symmetry. apply (Z.div_unique_pos _ _ _ (m' mod 2 ^ j + 1)); [|lia].
    split; [lia|].
    destruct (decide (m' mod 2 ^ j + 1 = 2 ^ j)) as [Heq|?]; [|lia].
    exfalso. assert (2 * 2 ^ j <= b); [|lia]. nia. }
  assert (0 <= a / b <= 100) as Hrange.
  { split; [apply Z.div_pos; lia|].
    apply Z.div_le_upper_bound; lia. }
  unfold float64.to_int.
  assert (E < 0) as HE by lia.
  destruct (Z.leb_spec 0 E); [lia|].
  rewrite Z.shiftr_div_pow2 by lia.
  assert (Zpos M / 2 ^ (- E) = a / b) as ->.
  { destruct HM as [[-> ->]|(-> & -> & Hr53)].
    - replace (- (e1 - e2 - 53 + d)) with j by lia. done.
    - rewrite <- Hresult, Hr53.
      replace j with (1 + - (e1 - e2 - 53 + d + 1)) by lia.
      rewrite Z.pow_add_r by lia. change (2 ^ 53) with (2 ^ 1 * 2 ^ 52).
      symmetry. apply Z.div_mul_cancel_l; [|lia].
      apply Z.pow_nonzero; lia. }
  destruct (Z.leb_spec (- 2 ^ 63) (a / b)); [|lia].
  destruct (Z.ltb_spec (a / b) (2 ^ 63)); [done|lia].
Qed.

(** ** The progress of a body *)

Lemma percent_floor (k S : Z) :
  0 < k <= S -> S < 2 ^ 47 ->
  fileupload.percent (fileupload.mkProgressBody k S)
  = Some (percent_as_specified k S).
Proof.
  intros Hk HS. unfold fileupload.percent, percent_as_specified.
  cbn [fileupload.read fileupload.total].
  assert (2 ^ 47 < 2 ^ 53) by done. assert (100 * 2 ^ 47 < 2 ^ 55) by done.
  apply div_holds_trunc.
  - apply mul_hundred_holds; [apply of_int_holds; lia|lia].
  - apply of_int_holds. lia.
  - done.
  - lia.
Qed.

Lemma int64_small (x : Z) : - 2 ^ 63 <= x < 2 ^ 63 -> int64 x = x.
Proof. intros Hx. unfold int64. rewrite Z.mod_small; lia. Qed.

Lemma forwarded_from_spec (S : Z) (pieces : list Z) :
  S < 2 ^ 47 ->
  forall k, 0 <= k -> Forall (fun n => 0 <= n) pieces ->
  k + sum_of pieces <= S ->
  forwarded_from (fileupload.mkProgressBody k S) pieces
  = map (fun k => Some (percent_as_specified k S)) (read_after k pieces).
Proof.
  intros HS. induction pieces as [|n rest IH]; intros k Hk Hall Hsum; [done|].
  apply Forall_cons in Hall as [Hn Hall]. cbn [sum_of] in Hsum.
  assert (0 <= sum_of rest) as Hrest.
  { clear -Hall. induction Hall; simpl; lia. }
  cbn [forwarded_from read_after]. unfold fileupload.Read.
  cbn [fileupload.read fileupload.total].
  destruct (Z.ltb_spec 0 n) as [Hpos|Hzero].
  - rewrite int64_small by lia. cbn [map app].
    rewrite percent_floor, IH by (done || lia). done.
  - replace n with 0 in Hsum by lia. rewrite IH by (done || lia). done.
Qed.

Lemma read_after_sorted (pieces : list Z) :
  Forall (fun n => 0 <= n) pieces ->
  forall (k : Z) (i j : nat) (x y : Z),
  (i <= j)%nat -> read_after k pieces !! i = Some x ->
  read_after k pieces !! j = Some y -> k <= x <= y.
Proof.
  induction 1 as [|n rest Hn Hall IH]; intros k i j x y Hij Hi Hj; [done|].
  cbn [read_after] in Hi, Hj. destruct (Z.ltb_spec 0 n) as [Hpos|Hzero].
  - destruct i as [|i], j as [|j]; simpl in Hi, Hj; simplify_eq.
    + lia.
    + destruct (IH (k + n) j j y y) as [? _]; [done..|]. lia.
    + lia.
    + destruct (IH (k + n) i j x y); [lia|done..|]. lia.
  - by apply (IH k i j).
Qed.

(** C7, for bodies below 2^47 bytes.  When the size [S] is below 2^47
    and the reads deliver [S] bytes at most in all, the sink receives one
    percentage for each read that delivered bytes, and it is the quotient
    of [k * 100] by [S], rounded down, for the number [k] of bytes read
    until then; the percentages do not decrease, and the percentage is 100
    when all [S] bytes have been read. *)
Theorem progress_percentage (S : Z) (pieces : list Z) :
  0 < S -> S < 2 ^ 47 ->
  Forall (fun n => 0 <= n) pieces -> sum_of pieces <= S ->
  let out := forwarded S pieces in
  let counts := read_after 0 pieces in
  out = map (fun k => Some (percent_as_specified k S)) counts
  /\ (forall (i j : nat) (p q : Z),
        (i <= j)%nat -> out !! i = Some (Some p) -> out !! j = Some (Some q) ->
        p <= q)
  /\ (forall i : nat, counts !! i = Some S -> out !! i = Some (Some 100)).
Proof.
  intros HS0 HS Hall Hsum out counts.
  assert (out = map (fun k => Some (percent_as_specified k S)) counts) as Hout.
  { by apply forwarded_from_spec. }
  split; [done|]. rewrite Hout. split.
  - intros i j p q Hij Hi Hj.
    change (map ?f counts) with (f <$> counts) in Hi, Hj.
    rewrite list_lookup_fmap in Hi, Hj.
    destruct (counts !! i) as [x|] eqn:Hx; [|done].
    destruct (counts !! j) as [y|] eqn:Hy; [|done].
    simpl in Hi, Hj. simplify_eq.
    destruct (read_after_sorted pieces Hall 0 i j x y Hij Hx Hy).
    unfold percent_as_specified. apply Z.div_le_mono; lia.
  - intros i Hi. change (map ?f counts) with (f <$> counts).
    rewrite list_lookup_fmap, Hi. simpl. unfold percent_as_specified.
    by rewrite (Z.mul_comm S 100), Z.div_mul by lia.
Qed.

Lemma progress_percentage_witness :
  forwarded 7 [3; 0; 3; 1] = [Some 42; Some 85; Some 100].
Proof.
  destruct (progress_percentage 7 [3; 0; 3; 1]) as [Hout _];
    [done|done|repeat constructor; done|done|].
  exact Hout.
Defined.

(** C7, above the bound.  For a body of 2^47 + 1 bytes of which
    97108866965177 have been read, the percentage forwarded is 69, where
    the quotient of the integers, rounded down, is 68; and when all the
    360287970189641 bytes of a body have been read, in one piece or in
    two, the percentage forwarded last is 99, not 100. *)
Lemma percent_large_body_counterexample :
  (forwarded body_above_bound [read_above_bound] = [Some 69]
   /\ percent_as_specified read_above_bound body_above_bound = 68)
  /\ (forwarded large_body [large_body] = [Some 99]
      /\ forwarded large_body [1; large_body - 1] = [Some 0; Some 99]
      /\ percent_as_specified large_body large_body = 100).
Proof. by vm_compute. Qed.

(** ** The upload batch *)

Lemma upload_loop_spec (env : fileupload.Env)
  (postURL signature expires metadata : string) (spn count : nat)
  (files : list string) :
  forall (i errored : nat) (w : fileupload.World),
  exists st,
    fileupload.upload_loop env postURL signature expires metadata spn count
                           i files errored w
    = ((errored + failures env postURL signature expires metadata count i files)%nat,
       fileupload.mkWorld
         (config.with_store (fileupload.cfg w) st)
         (fileupload.trace w
          ++ batch_events env postURL signature expires metadata count i files)).
Proof.
  induction files as [|filePath rest IH]; intros i errored [c tr].
  - exists (config.store c). simpl. rewrite List.app_nil_r, Nat.add_0_r.
    by destruct c.
  - simpl. unfold fileupload.uploadFile, file_events, fails.
    destruct (fileupload.transferOf env i count postURL filePath signature
                                    expires metadata) as [err|err|code body].
    + edestruct IH as [st ->]. exists st. simpl. f_equal; try lia.
      f_equal. by rewrite <- !List.app_assoc.
    + edestruct IH as [st ->]. exists st. simpl. f_equal; try lia.
      f_equal. by rewrite <- !List.app_assoc.
    + destruct ((code =? 200) || (code =? 201)) eqn:Hcode.
      * replace (negb (code =? 200) && negb (code =? 201)) with false
          by (by rewrite <- negb_orb, Hcode).
        edestruct IH as [st ->]. exists st. simpl. f_equal; try lia.
        f_equal. by rewrite <- !List.app_assoc.
      * replace (negb (code =? 200) && negb (code =? 201)) with true
          by (by rewrite <- negb_orb, Hcode).
        edestruct IH as [st ->]. exists st. simpl. f_equal; try lia.
        f_equal. by rewrite <- !List.app_assoc.
Qed.

Lemma opened_batch_events (env : fileupload.Env)
  (postURL signature expires metadata : string) (count : nat)
  (files : list string) (i : nat) :
  opened (batch_events env postURL signature expires metadata count i files)
  = files.
Proof.
  revert i. induction files as [|filePath rest IH]; intros i; [done|].
  simpl. unfold opened in *. rewrite omap_app, IH. unfold file_events.
  destruct (fileupload.transferOf env i count postURL filePath signature
                                  expires metadata) as [err|err|code body];
    [done|done|]. by destruct ((code =? 200) || (code =? 201)).
Qed.

Lemma error_lines_batch_events (env : fileupload.Env)
  (postURL signature expires metadata : string) (count : nat)
  (files : list string) (i : nat) :
  error_lines (batch_events env postURL signature expires metadata count i files)
  = failures env postURL signature expires metadata count i files.
Proof.
  revert i. induction files as [|filePath rest IH]; intros i; [done|].
  unfold error_lines in *. cbn [batch_events failures].
  rewrite List.filter_app, List.length_app, IH.
  f_equal. unfold file_events, fails.
  destruct (fileupload.transferOf env i count postURL filePath signature
                                  expires metadata) as [err|err|code body];
    [reflexivity|reflexivity|].
  destruct ((code =? 200) || (code =? 201)); reflexivity.
Qed.

Lemma failures_le (env : fileupload.Env)
  (postURL signature expires metadata : string) (count : nat)
  (files : list string) (i : nat) :
  (failures env postURL signature expires metadata count i files
   <= length files)%nat.
Proof.
  revert i. induction files as [|filePath rest IH]; intros i; simpl; [lia|].
  specialize (IH (S i)). destruct (fails _ _ _ _ _ _ _ _); lia.
Qed.

(** C3, as the code has it.  With a shell attached and valid credentials,
    [UploadFiles] returns after printing the header, going through the
    files in order, and printing the summary.  Every file of the batch is
    asked for, in order, whatever happened to the files before it; each
    failing file leaves one [Error uploading] line, and the number of these
    is the number [k] of failing files.  The last line is
    ["🙈 k out of n files failed to upload."] when [k] is positive and
    ["All files uploaded successfully."] otherwise. *)
Theorem UploadFiles_batch (env : fileupload.Env) (api : string)
  (response params : gmap string iface) (files : list string)
  (w : fileupload.World) :
  config.HasShell (fileupload.cfg w) = true ->
  response !! "getuploadparams" = Some (IMap params) ->
  forallb (fileupload.has_key params) fileupload.requiredKeys = true ->
  let postURL := as_string (params !! "postURL") in
  let signature := as_string (params !! "signature") in
  let expires := as_string (params !! "expires") in
  let metadata := as_string (params !! "metadata") in
  let n := length files in
  let events := batch_events env postURL signature expires metadata n 0 files in
  let k := failures env postURL signature expires metadata n 0 files in
  (exists c,
     fileupload.UploadFiles env api response files w
     = fileupload.Returned
         (fileupload.mkWorld c
            (fileupload.trace w
             ++ header_line api files :: events ++ [summary_line k n])))
  /\ opened events = files
  /\ error_lines events = k
  /\ (k <= n)%nat.
Proof.
  intros Hshell Hresp Hkeys postURL signature expires metadata n events k.
  split; [|split; [apply opened_batch_events|split;
                   [apply error_lines_batch_events|apply failures_le]]].
  unfold fileupload.UploadFiles. rewrite Hresp. cbn [reflect.TypeOf].
  assert (List.find (fun key => negb (fileupload.has_key params key))
                    fileupload.requiredKeys = None) as ->.
  { unfold fileupload.requiredKeys in *. simpl in Hkeys.
    rewrite !andb_true_iff in Hkeys. destruct Hkeys as (H1 & H2 & H3 & H4 & _).
    simpl. by rewrite H1, H2, H3, H4. }
  unfold config.StartSpinner. cbn [fileupload.emit fileupload.cfg fileupload.trace].
  rewrite Hshell. cbn [negb].
  destruct files as [|filePath rest].
  - eexists. unfold fileupload.finish, fileupload.emit. simpl.
    rewrite <- List.app_assoc. reflexivity.
  - cbv iota. set (files := filePath :: rest) in *. clearbody files.
    fold postURL signature expires metadata.
    match goal with
    | |- context [fileupload.upload_loop _ _ _ _ _ ?spn _ 0 _ 0 ?w0] =>
        destruct (upload_loop_spec env postURL signature expires metadata
                    spn (length files) files 0 0 w0) as [st Hloop]
    end.
    rewrite Hloop. subst n events k. eexists.
    unfold fileupload.finish, summary_line, fileupload.emit.
    cbn [Nat.add fileupload.trace fileupload.cfg].
    destruct (0 <? _)%nat; rewrite <- !List.app_assoc; reflexivity.
Qed.

Lemma UploadFiles_batch_witness :
  exists c,
    fileupload.UploadFiles second_fails "getUploadParamsForIso" upload_response
                           three_files shell_world
    = fileupload.Returned
        (fileupload.mkWorld c
           [header_line "getUploadParamsForIso" three_files;
            fileupload.Open "a.iso";
            fileupload.Post "https://ssvm.example/upload/1" "a.iso" "sig"
                            "2030-01-01T00:00:00Z" "meta";
            fileupload.Stdout ("[1/3] a.iso" +:+ tab
                              +:+ "[========================] ✅" +:+ nl);
            fileupload.Open "b.iso";
            fileupload.Post "https://ssvm.example/upload/1" "b.iso" "sig"
                            "2030-01-01T00:00:00Z" "meta";
            fileupload.Stdout ("Error uploading b.iso : [2/3] b.iso" +:+ tab
                              +:+ "upload failed: disk full" +:+ nl);
            fileupload.Open "c.iso";
            fileupload.Post "https://ssvm.example/upload/1" "c.iso" "sig"
                            "2030-01-01T00:00:00Z" "meta";
            fileupload.Stdout ("[3/3] c.iso" +:+ tab
                              +:+ "[========================] ✅" +:+ nl);
            fileupload.Stdout ("🙈 1 out of 3 files failed to upload." +:+ nl)]).
Proof.
  exact (proj1 (UploadFiles_batch second_fails "getUploadParamsForIso"
                  upload_response upload_params three_files shell_world
                  eq_refl eq_refl eq_refl)).
Defined.

(** C3, as it is worded, fails on the text of the summary: when the second
    of three files is answered with status 500, the third file is still
    asked for and the last line printed is
    ["🙈 1 out of 3 files failed to upload."], which is not
    ["1 of 3 files failed to upload."]. *)
Lemma summary_text_counterexample :
  match fileupload.UploadFiles second_fails "getUploadParamsForIso"
                               upload_response three_files shell_world with
  | fileupload.Returned w =>
      opened (fileupload.trace w) = three_files
      /\ last (fileupload.trace w)
         = Some (fileupload.Stdout ("🙈 1 out of 3 files failed to upload." +:+ nl))
      /\ last (fileupload.trace w)
         <> Some (fileupload.Stdout (summary_as_worded 1 3))
      /\ last (fileupload.trace w)
         <> Some (fileupload.Stdout (summary_as_worded 1 3 +:+ nl))
  | fileupload.Panicked _ => False
  end.
Proof. vm_compute. repeat split; congruence. Qed.

(** ** The spinner controller: bookkeeping *)

Lemma lookup_Stop (st : list config.Spinner) (l i : nat) :
  config.Stop l st !! i
  = (fun s => config.mkSpinner (config.Suffix s)
                (config.active s && negb (bool_decide (i = l)))) <$> st !! i.
Proof.
  unfold config.Stop. destruct (decide (i = l)) as [->|Hne].
  - rewrite list_lookup_alter_eq, bool_decide_true by done.
    destruct (st !! l) as [[sf a]|]; simpl; [by rewrite andb_false_r|done].
  - rewrite list_lookup_alter_ne, bool_decide_false by done.
    destruct (st !! i) as [[sf a]|]; simpl; [by rewrite andb_true_r|done].
Qed.

Lemma lookup_Start (st : list config.Spinner) (l i : nat) :
  config.Start l st !! i
  = (fun s => config.mkSpinner (config.Suffix s)
                (config.active s || bool_decide (i = l))) <$> st !! i.
Proof.
  unfold config.Start. destruct (decide (i = l)) as [->|Hne].
  - rewrite list_lookup_alter_eq, bool_decide_true by done.
    destruct (st !! l) as [[sf a]|]; simpl; [by rewrite orb_true_r|done].
  - rewrite list_lookup_alter_ne, bool_decide_false by done.
    destruct (st !! i) as [[sf a]|]; simpl; [by rewrite orb_false_r|done].
Qed.

Lemma lookup_pause_all (set : list config.handle) (st : list config.Spinner)
  (i : nat) :
  foldl config.pause_one st set !! i
  = (fun s => config.mkSpinner (config.Suffix s)
                (config.active s && negb (bool_decide (Some i ∈ set))))
    <$> st !! i.
Proof.
  revert st. induction set as [|h set IH]; intros st; simpl.
  - destruct (st !! i) as [[sf a]|]; simpl; [by rewrite andb_true_r|done].
  - rewrite IH.
    rewrite (bool_decide_ext (Some i ∈ h :: set) (Some i = h ∨ Some i ∈ set))
      by apply elem_of_cons.
    rewrite bool_decide_or, negb_orb.
    destruct h as [l|]; simpl.
    + rewrite (bool_decide_ext (Some i = Some l) (i = l)) by naive_solver.
      unfold config.Active. destruct (st !! l) as [[sf a]|] eqn:Hl; simpl.
      * destruct a.
        -- rewrite lookup_Stop. destruct (st !! i) as [[sf' a']|]; simpl; [|done].
           by rewrite andb_assoc.
        -- destruct (decide (i = l)) as [->|Hne].
           ++ rewrite Hl. done.
           ++ rewrite (bool_decide_false (i = l)) by done. done.
      * destruct (decide (i = l)) as [->|Hne].
        -- rewrite Hl. done.
        -- rewrite (bool_decide_false (i = l)) by done. done.
    + done.
Qed.

Lemma lookup_resume_all (set : list config.handle) (st : list config.Spinner)
  (i : nat) :
  foldl config.resume_one st set !! i
  = (fun s => config.mkSpinner (config.Suffix s)
                (config.active s || bool_decide (Some i ∈ set)))
    <$> st !! i.
Proof.
  revert st. induction set as [|h set IH]; intros st; simpl.
  - destruct (st !! i) as [[sf a]|]; simpl; [by rewrite orb_false_r|done].
  - rewrite IH.
    rewrite (bool_decide_ext (Some i ∈ h :: set) (Some i = h ∨ Some i ∈ set))
      by apply elem_of_cons.
    rewrite bool_decide_or.
    destruct h as [l|]; simpl.
    + rewrite (bool_decide_ext (Some i = Some l) (i = l)) by naive_solver.
      unfold config.Active. destruct (st !! l) as [[sf a]|] eqn:Hl; simpl.
      * destruct a; simpl.
        -- destruct (decide (i = l)) as [->|Hne].
           ++ rewrite Hl. done.
           ++ rewrite (bool_decide_false (i = l)) by done. done.
        -- rewrite lookup_Start. destruct (st !! i) as [[sf' a']|]; simpl; [|done].
           by rewrite orb_assoc.
      * rewrite lookup_Start. destruct (decide (i = l)) as [->|Hne].
        -- rewrite Hl. done.
        -- destruct (st !! i) as [[sf' a']|]; simpl; [|done].
           by rewrite (bool_decide_false (i = l)), orb_false_r by done.
    + done.
Qed.

Lemma all_running_lookup (c : config.Config) (i : nat) :
  all_running c = true ->
  Some i ∈ config.activeSpinners c ->
  exists s, config.store c !! i = Some s /\ config.active s = true.
Proof.
  unfold all_running. rewrite forallb_forall. intros Hall Hin.
  apply list_elem_of_In, Hall in Hin. unfold running, config.Active in Hin.
  destruct (config.store c !! i) as [s|]; [by exists s|done].
Qed.

(** X1. When every spinner of the active set is animating, pausing all
    and then resuming all gives back the configuration as it was: the same
    set, the same labels, every spinner in the state it had. *)
Theorem pause_then_resume_restores (c : config.Config) :
  all_running c = true ->
  config.ResumePausedSpinners (config.PauseActiveSpinners c).2 = c.
Proof.
  intros Hall. destruct c as [shell st set].
  unfold config.ResumePausedSpinners, config.PauseActiveSpinners, config.with_store.
  simpl. f_equal. apply list_eq. intros i.
  rewrite lookup_resume_all, lookup_pause_all.
  destruct (st !! i) as [[sf a]|] eqn:Hi; simpl; [|done].
  case_bool_decide as Hin; simpl.
  - destruct (all_running_lookup _ i Hall Hin) as (s & Hs & Ha). simpl in Hs.
    rewrite Hi in Hs. injection Hs as <-. simpl in Ha. subst a.
    by rewrite andb_false_r.
  - by rewrite andb_true_r, orb_false_r.
Qed.

Lemma pause_then_resume_restores_witness :
  config.ResumePausedSpinners (config.PauseActiveSpinners two_spinners).2
  = two_spinners.
Proof. apply (pause_then_resume_restores two_spinners). reflexivity. Defined.

(** X2. Pausing twice is pausing once, and resuming twice is resuming
    once: the second call returns the same count and changes nothing. *)
Theorem pause_resume_idempotent (c : config.Config) :
  config.PauseActiveSpinners (config.PauseActiveSpinners c).2
  = config.PauseActiveSpinners c
  /\ config.ResumePausedSpinners (config.ResumePausedSpinners c)
     = config.ResumePausedSpinners c.
Proof.
  destruct c as [shell st set].
  unfold config.ResumePausedSpinners, config.PauseActiveSpinners, config.with_store.
  simpl.
  assert (foldl config.pause_one (foldl config.pause_one st set) set
          = foldl config.pause_one st set) as ->.
  { apply list_eq. intros i. rewrite !lookup_pause_all.
    destruct (st !! i) as [[sf a]|]; simpl; [|done].
    by destruct a, (bool_decide (Some i ∈ set)). }
  assert (foldl config.resume_one (foldl config.resume_one st set) set
          = foldl config.resume_one st set) as ->.
  { apply list_eq. intros i. rewrite !lookup_resume_all.
    destruct (st !! i) as [[sf a]|]; simpl; [|done].
    by destruct a, (bool_decide (Some i ∈ set)). }
  done.
Qed.

(** X3. [StopSpinner], [PauseActiveSpinners] and [ResumePausedSpinners]
    change nothing but running flags: the labels of all spinners, their
    number and the shell flag stay as they are. *)
Theorem labels_kept (c : config.Config) (waiter : config.handle) :
  let kept c' :=
    config.Suffix <$> config.store c' = config.Suffix <$> config.store c
    /\ config.HasShell c' = config.HasShell c in
  kept (config.StopSpinner c waiter)
  /\ kept (config.PauseActiveSpinners c).2
  /\ kept (config.ResumePausedSpinners c).
Proof.
  simpl. repeat split; try done.
  - destruct waiter as [l|]; [|done]. simpl.
    apply list_eq. intros i. rewrite !list_lookup_fmap, lookup_Stop.
    by destruct (config.store c !! i).
  - by destruct waiter.
  - apply list_eq. intros i. simpl. rewrite !list_lookup_fmap, lookup_pause_all.
    by destruct (config.store c !! i).
  - apply list_eq. intros i. simpl. rewrite !list_lookup_fmap, lookup_resume_all.
    by destruct (config.store c !! i).
Qed.

Lemma remove_first_filter (waiter : config.handle) (set : list config.handle) :
  NoDup set ->
  config.remove_first waiter set = filter (fun h => h <> waiter) set.
Proof.
  induction 1 as [|h set Hh Hset IH]; [done|]. simpl. case_bool_decide as Heq.
  - subst h. rewrite filter_cons_False by naive_solver.
    symmetry. clear IH Hset. induction set as [|h set IH]; [done|].
    rewrite not_elem_of_cons in Hh. destruct Hh as [Hne Hh].
    rewrite filter_cons_True by done. f_equal. by apply IH.
  - rewrite filter_cons_True by done. by rewrite IH.
Qed.

Lemma well_formed_spec (c : config.Config) :
  well_formed c = true
  <-> Forall (fun h => allocated c h = true) (config.activeSpinners c)
      /\ NoDup (config.activeSpinners c).
Proof.
  unfold well_formed. rewrite andb_true_iff, bool_decide_eq_true.
  rewrite forallb_forall, Forall_forall. by setoid_rewrite list_elem_of_In.
Qed.

(** X4. The four operations of the controller keep the active set well
    formed: if every entry is an allocated spinner and none is entered
    twice, the same holds after [StartSpinner], [StopSpinner],
    [PauseActiveSpinners] and [ResumePausedSpinners]. *)
Theorem well_formed_kept (c : config.Config) (suffix : string)
  (waiter : config.handle) :
  well_formed c = true ->
  well_formed (config.StartSpinner c suffix).2 = true
  /\ well_formed (config.StopSpinner c waiter) = true
  /\ well_formed (config.PauseActiveSpinners c).2 = true
  /\ well_formed (config.ResumePausedSpinners c) = true.
Proof.
  rewrite !well_formed_spec. intros [Hall Hnodup].
  destruct c as [shell st set]. simpl in *.
  split; [|split; [|split]].
  - unfold config.StartSpinner. simpl. destruct shell; simpl; [|done].
    split.
    + apply Forall_app. split.
      * eapply Forall_impl; [exact Hall|]. intros [l|]; simpl; [|done].
        rewrite !Nat.ltb_lt, List.length_app. lia.
      * apply Forall_singleton. simpl. rewrite Nat.ltb_lt, List.length_app. simpl. lia.
    + apply NoDup_app. split; [done|]. split; [|apply NoDup_singleton].
      intros h Hh ->%list_elem_of_singleton.
      rewrite Forall_forall in Hall. apply Hall in Hh. simpl in Hh.
      rewrite Nat.ltb_lt in Hh. lia.
  - destruct waiter as [l|]; simpl; [|done].
    rewrite remove_first_filter by done. split.
    + apply Forall_forall. intros h [_ Hh]%list_elem_of_filter.
      rewrite Forall_forall in Hall. apply Hall in Hh.
      destruct h as [l'|]; simpl in *; [|done].
      unfold config.Stop. by rewrite length_alter.
    + by apply NoDup_filter.
  - split; [|done]. eapply Forall_impl; [exact Hall|].
    intros [l|]; simpl; [|done]. by rewrite length_pause_all.
  - split; [|done]. eapply Forall_impl; [exact Hall|].
    intros [l|]; simpl; [|done]. by rewrite length_resume_all.
Qed.

Lemma well_formed_kept_witness :
  well_formed (config.StartSpinner two_spinners "third").2 = true
  /\ well_formed (config.StopSpinner two_spinners (Some 0%nat)) = true
  /\ well_formed (config.PauseActiveSpinners two_spinners).2 = true
  /\ well_formed (config.ResumePausedSpinners two_spinners) = true.
Proof. apply (well_formed_kept two_spinners "third" (Some 0%nat)). reflexivity. Defined.



(** X6. [StopSpinner] on a well-formed set takes the handle out of the
    set and keeps the other entries in their order; the spinner stops
    animating, whether it was in the set or not, and no other spinner
    changes. *)
Theorem StopSpinner_removes (c : config.Config) (l : nat) :
  well_formed c = true ->
  let stopped := config.StopSpinner c (Some l) in
  config.activeSpinners stopped
  = filter (fun h => h <> Some l) (config.activeSpinners c)
  /\ (Some l ∉ config.activeSpinners stopped)
  /\ running stopped l = false
  /\ forall l', l' <> l -> config.store stopped !! l' = config.store c !! l'.
Proof.
  rewrite well_formed_spec. intros [Hall Hnodup]. simpl.
  rewrite remove_first_filter by done. split; [done|]. split; [|split].
  - rewrite list_elem_of_filter. by intros [? _].
  - unfold running, config.Active. simpl. rewrite lookup_Stop.
    rewrite bool_decide_true by done.
    destruct (_ !! _); simpl; [by rewrite andb_false_r|done].
  - intros l' Hne. rewrite lookup_Stop, bool_decide_false by done.
    destruct (_ !! _) as [[sf a]|]; simpl; [by rewrite andb_true_r|done].
Qed.

Lemma StopSpinner_removes_witness :
  config.activeSpinners (config.StopSpinner two_spinners (Some 0%nat))
  = [Some 1%nat].
Proof. apply (StopSpinner_removes two_spinners 0). reflexivity. Defined.

(** ** [UploadFiles]: the spinner of the batch, and panics *)

Lemma on_store_alter (f : config.Spinner -> config.Spinner) (spn : nat)
  (w : fileupload.World) :
  fileupload.on_store (alter f spn) w
  = fileupload.mkWorld
      (config.with_store (fileupload.cfg w)
                         (alter f spn (config.store (fileupload.cfg w))))
      (fileupload.trace w).
Proof. reflexivity. Qed.

(** What the loop does to the store: only the spinner of the batch is
    written to. *)
Lemma upload_loop_store (env : fileupload.Env)
  (postURL signature expires metadata : string) (spn count : nat)
  (files : list string) :
  forall (i errored : nat) (w : fileupload.World),
  let w' := (fileupload.upload_loop env postURL signature expires metadata
               spn count i files errored w).2 in
  config.HasShell (fileupload.cfg w') = config.HasShell (fileupload.cfg w)
  /\ config.activeSpinners (fileupload.cfg w')
     = config.activeSpinners (fileupload.cfg w)
  /\ length (config.store (fileupload.cfg w'))
     = length (config.store (fileupload.cfg w))
  /\ forall j, j <> spn ->
       config.store (fileupload.cfg w') !! j
       = config.store (fileupload.cfg w) !! j.
Proof.
  induction files as [|filePath rest IH]; intros i errored [c tr]; [done|].
  cbn [fileupload.upload_loop]. unfold fileupload.uploadFile.
  assert (forall w0 errored0,
            config.HasShell (fileupload.cfg w0) = config.HasShell c ->
            config.activeSpinners (fileupload.cfg w0) = config.activeSpinners c ->
            length (config.store (fileupload.cfg w0)) = length (config.store c) ->
            (forall j, j <> spn ->
               config.store (fileupload.cfg w0) !! j = config.store c !! j) ->
            let w' := (fileupload.upload_loop env postURL signature expires
                         metadata spn count (S i) rest errored0 w0).2 in
            config.HasShell (fileupload.cfg w') = config.HasShell c
            /\ config.activeSpinners (fileupload.cfg w') = config.activeSpinners c
            /\ length (config.store (fileupload.cfg w')) = length (config.store c)
            /\ forall j, j <> spn ->
                 config.store (fileupload.cfg w') !! j = config.store c !! j)
    as Hstep.
  { intros w0 errored0 H1 H2 H3 H4. simpl.
    destruct (IH (S i) errored0 w0) as (G1 & G2 & G3 & G4).
    split; [congruence|]. split; [congruence|]. split; [congruence|].
    intros j Hj. rewrite G4 by done. by apply H4. }
  destruct (fileupload.transferOf env i count postURL filePath signature
                                  expires metadata) as [err|err|code body];
    [| |destruct (negb (code =? 200) && negb (code =? 201))];
    apply Hstep; simpl;
    unfold config.Stop, config.Start, config.setSuffix;
    rewrite ?length_alter; try done;
    intros j Hj; by rewrite ?list_lookup_alter_ne by done.
Qed.

Lemma remove_first_fresh (c : config.Config) :
  well_formed c = true ->
  config.remove_first (Some (length (config.store c)))
    (config.activeSpinners c ++ [Some (length (config.store c))])
  = config.activeSpinners c.
Proof.
  rewrite well_formed_spec. intros [Hall Hnodup].
  assert (Some (length (config.store c)) ∉ config.activeSpinners c) as Hfresh.
  { intros Hin. rewrite Forall_forall in Hall. apply Hall in Hin. simpl in Hin.
    rewrite Nat.ltb_lt in Hin. lia. }
  rewrite remove_first_filter.
  - rewrite filter_app, filter_cons_False by (intros H; by apply H).
    rewrite filter_nil, List.app_nil_r. clear Hall Hnodup.
    induction (config.activeSpinners c) as [|h set IH]; [done|].
    rewrite not_elem_of_cons in Hfresh. destruct Hfresh as [Hne Hfresh].
    rewrite filter_cons_True by done. by rewrite IH.
  - apply NoDup_app. split; [done|]. split; [|apply NoDup_singleton].
    intros h Hh ->%list_elem_of_singleton. done.
Qed.

Lemma find_missing_key (params : gmap string iface) :
  List.find (fun key => negb (fileupload.has_key params key))
            fileupload.requiredKeys
  = None
  <-> forallb (fileupload.has_key params) fileupload.requiredKeys = true.
Proof.
  unfold fileupload.requiredKeys. simpl.
  destruct (fileupload.has_key params "postURL"),
    (fileupload.has_key params "metadata"),
    (fileupload.has_key params "signature"),
    (fileupload.has_key params "expires"); simpl; split; done.
Qed.

(** [UploadFiles] with a shell and complete credentials. *)
Lemma UploadFiles_interactive (env : fileupload.Env) (api : string)
  (response params : gmap string iface) (files : list string)
  (w : fileupload.World) :
  config.HasShell (fileupload.cfg w) = true ->
  credentials response = Some params ->
  let postURL := as_string (params !! "postURL") in
  let signature := as_string (params !! "signature") in
  let expires := as_string (params !! "expires") in
  let metadata := as_string (params !! "metadata") in
  let n := length files in
  let spn := length (config.store (fileupload.cfg w)) in
  exists st,
    fileupload.UploadFiles env api response files w
    = fileupload.Returned
        (fileupload.mkWorld
           (config.mkConfig true (config.Stop spn st)
              (config.remove_first (Some spn)
                 (config.activeSpinners (fileupload.cfg w) ++ [Some spn])))
           (fileupload.trace w
            ++ header_line api files
               :: batch_events env postURL signature expires metadata n 0 files
               ++ [summary_line
                     (failures env postURL signature expires metadata n 0 files)
                     n]))
    /\ length st = S spn
    /\ forall j, j <> spn ->
         st !! j
         = (config.store (fileupload.cfg w)
            ++ [config.mkSpinner (" " +:+ fileupload.uploadingMessage) true]) !! j.
Proof.
  intros Hshell Hcred postURL signature expires metadata n spn.
  unfold credentials in Hcred.
  destruct (response !! "getuploadparams") as [[| | | | |params']|] eqn:Hresp;
    try done.
  destruct (forallb _ _) eqn:Hkeys; [|done]. injection Hcred as ->.
  apply find_missing_key in Hkeys.
  unfold fileupload.UploadFiles. rewrite Hresp. cbn [reflect.TypeOf].
  rewrite Hkeys.
  unfold config.StartSpinner. cbn [fileupload.emit fileupload.cfg fileupload.trace].
  rewrite Hshell. cbn [negb].
  fold postURL signature expires metadata spn.
  destruct files as [|filePath rest].
  - eexists. split; [|split; [|done]].
    + unfold fileupload.finish, fileupload.emit. simpl.
      rewrite <- List.app_assoc. reflexivity.
    + rewrite List.length_app. simpl. lia.
  - cbv iota. set (files := filePath :: rest) in *. clearbody files.
    match goal with
    | |- context [fileupload.upload_loop _ _ _ _ _ _ _ 0 _ 0 ?w0] =>
        destruct (upload_loop_spec env postURL signature expires metadata
                    spn (length files) files 0 0 w0) as [st Hloop];
        pose proof (upload_loop_store env postURL signature expires metadata
                      spn (length files) files 0 0 w0) as Hstore
    end.
    rewrite Hloop in Hstore |- *. subst n. exists st.
    simpl in Hstore. destruct Hstore as (_ & _ & Hlen & Hother).
    split; [|split; [|done]].
    + unfold fileupload.finish, summary_line, fileupload.emit.
      cbn [Nat.add fileupload.trace fileupload.cfg].
      destruct (0 <? _)%nat; rewrite <- !List.app_assoc; reflexivity.
    + rewrite Hlen, List.length_app. simpl. lia.
Qed.

(** X7. With a shell, complete credentials and a well-formed active set,
    [UploadFiles] returns, and the controller is left as it was found: the
    active set and the spinners that existed are unchanged, the one spinner
    the batch started has been stopped and taken out of the set, and the
    set is still well formed. *)
Theorem UploadFiles_releases_spinner (env : fileupload.Env) (api : string)
  (response params : gmap string iface) (files : list string)
  (w : fileupload.World) :
  config.HasShell (fileupload.cfg w) = true ->
  credentials response = Some params ->
  well_formed (fileupload.cfg w) = true ->
  let o := fileupload.UploadFiles env api response files w in
  let c := fileupload.cfg w in
  let c' := fileupload.cfg (world_of o) in
  panicked o = false
  /\ config.activeSpinners c' = config.activeSpinners c
  /\ config.HasShell c' = config.HasShell c
  /\ take (length (config.store c)) (config.store c') = config.store c
  /\ length (config.store c') = S (length (config.store c))
  /\ running c' (length (config.store c)) = false
  /\ well_formed c' = true.
Proof.
  intros Hshell Hcred Hwf.
  destruct (UploadFiles_interactive env api response params files w Hshell Hcred)
    as (st & -> & Hlen & Hother).
  simpl. rewrite remove_first_fresh by done.
  assert (take (length (config.store (fileupload.cfg w)))
               (config.Stop (length (config.store (fileupload.cfg w))) st)
          = config.store (fileupload.cfg w)) as Htake.
  { apply list_eq. intros i.
    destruct (decide (i < length (config.store (fileupload.cfg w)))%nat) as [Hi|Hi].
    - rewrite lookup_take_lt by done. rewrite lookup_Stop.
      rewrite Hother, lookup_app_l, bool_decide_false by lia.
      destruct (_ !! i) as [[sf a]|]; simpl; [by rewrite andb_true_r|done].
    - rewrite lookup_take_ge by lia. symmetry. apply lookup_ge_None. lia. }
  assert (length (config.Stop (length (config.store (fileupload.cfg w))) st)
          = S (length (config.store (fileupload.cfg w)))) as Hlen'.
  { unfold config.Stop. by rewrite length_alter. }
  split; [done|]. split; [done|]. split; [done|]. split; [done|].
  split; [done|]. split.
  - unfold running, config.Active. simpl. rewrite lookup_Stop.
    rewrite bool_decide_true by done.
    destruct (_ !! _); simpl; [by rewrite andb_false_r|done].
  - apply well_formed_spec. apply well_formed_spec in Hwf as [Hall Hnodup].
    simpl. split; [|done]. eapply Forall_impl; [exact Hall|].
    intros [l|]; simpl; [|done]. rewrite Hlen', !Nat.ltb_lt. lia.
Qed.

Lemma UploadFiles_releases_spinner_witness :
  config.activeSpinners
    (fileupload.cfg
       (world_of (fileupload.UploadFiles second_fails "getUploadParamsForIso"
                    upload_response three_files busy_world)))
  = [Some 0%nat; Some 1%nat].
Proof.
  apply (UploadFiles_releases_spinner second_fails "getUploadParamsForIso"
           upload_response upload_params three_files busy_world);
    reflexivity.
Defined.

(** X8. [UploadFiles] panics in exactly two situations: the value under
    [getuploadparams] is nil, or the credentials are complete, no shell is
    attached and the batch is not empty.  In the second the header has been
    printed and nothing else was done. *)
Theorem UploadFiles_panics_iff (env : fileupload.Env) (api : string)
  (response : gmap string iface) (files : list string) (w : fileupload.World) :
  let o := fileupload.UploadFiles env api response files w in
  panicked o
  = match response !! "getuploadparams", credentials response with
    | Some INil, _ => true
    | _, Some _ =>
        negb (config.HasShell (fileupload.cfg w))
        && negb (bool_decide (files = []))
    | _, None => false
    end
  /\ match credentials response with
     | Some _ =>
         if panicked o then world_of o = after w [header_line api files]
         else True
     | None => True
     end.
Proof.
  simpl. destruct (credentials response) as [params|] eqn:Hcred.
  - destruct (config.HasShell (fileupload.cfg w)) eqn:Hshell.
    + destruct (UploadFiles_interactive env api response params files w Hshell Hcred)
        as (st & -> & _). simpl.
      unfold credentials in Hcred.
      by destruct (response !! "getuploadparams") as [[| | | | |?]|].
    + unfold credentials in Hcred.
      destruct (response !! "getuploadparams") as [[| | | | |params']|] eqn:Hresp;
        try done.
      destruct (forallb _ _) eqn:Hkeys; [|done]. injection Hcred as ->.
      apply find_missing_key in Hkeys.
      unfold fileupload.UploadFiles. rewrite Hresp. cbn [reflect.TypeOf].
      rewrite Hkeys. unfold config.StartSpinner.
      cbn [fileupload.emit fileupload.cfg fileupload.trace].
      rewrite Hshell. cbn [negb]. destruct files; simpl; [done|].
      split; [done|]. by destruct w.
  - split; [|done]. unfold credentials in Hcred.
    pose proof (UploadFiles_rejects env api response files w) as Hrej.
    destruct (response !! "getuploadparams") as [[| | | | |params']|] eqn:Hresp;
      try by rewrite Hrej.
    destruct (forallb _ _) eqn:Hkeys; [done|].
    destruct (List.find (fun key => negb (fileupload.has_key params' key))
                        fileupload.requiredKeys) eqn:Hfind.
    + by rewrite Hrej.
    + apply find_missing_key in Hfind. congruence.
Qed.

(** ** The prompt flow, end to end *)

Lemma ValidateAndGetFileList_eq (env : fileupload.Env) (filePaths : string)
  (w : fileupload.World) :
  let paths := candidate_paths filePaths in
  let missing := List.filter (IsNotExist env) paths in
  fileupload.ValidateAndGetFileList env filePaths w
  = (match missing with
     | [] => inl paths
     | _ :: _ => inr (missing_report missing)
     end,
     after w (map fileupload.Stat paths)).
Proof.
  unfold fileupload.ValidateAndGetFileList, candidate_paths.
  rewrite validate_loop_spec, FieldsFunc_Split, trimmed_fields. simpl.
  set (paths := List.filter _ (map strings.TrimSpace _)).
  destruct (List.filter (IsNotExist env) paths) as [|m ms] eqn:Hm; simpl; [|done].
  f_equal. f_equal. clear -Hm. induction paths as [|p paths IH]; [done|].
  simpl in *. destruct (IsNotExist env p); [done|]. simpl. f_equal. by apply IH.
Qed.





(** ** The API handler: what it requests and what it returns *)

Lemma calls_follow_up (hasShell : bool) (a : api.API)
  (response : gmap string iface) :
  calls (api.upload_follow_up hasShell a response) = [].
Proof.
  unfold api.upload_follow_up. destruct hasShell; [|done].
  by destruct (_ || _).
Qed.

Lemma calls_run (env : api.Env) (hasShell : bool) (a : api.API)
  (apiArgs : list string) :
  calls (api.run env hasShell a apiArgs).1
  = match api.missing_loop (api.RequiredArgs a) apiArgs with
    | [] => [api.Call (api.Name a) apiArgs (api.Async a)]
    | _ :: _ => []
    end.
Proof.
  unfold api.run.
  destruct (api.missing_loop (api.RequiredArgs a) apiArgs); simpl; [|done].
  destruct (api.NewAPIRequest env (api.Name a) apiArgs (api.Async a))
    as [[resp|] [err|]]; simpl;
    repeat match goal with
           | |- context [if ?b then _ else _] => destruct b; simpl
           end;
    unfold calls; simpl; try done.
  fold (calls (api.upload_follow_up hasShell a resp)).
  by rewrite calls_follow_up.
Qed.

(** X10. The handler requests the API at most once, and only for a
    registered command whose required arguments are all provided: never
    when no token was given, when [-h] occurs among the tokens, when the
    name resolves to nothing, or when a required argument is missing. *)
Theorem Handle_calls (env : api.Env) (r : api.Request) :
  calls (api.Handle env r).1
  = match api.Args r with
    | [] => []
    | _ :: _ =>
        if help_requested (api.Args r) then []
        else
          match api.Cache r !! (api.resolve (api.Cache r) (api.Args r)).1 with
          | None => []
          | Some a =>
              let apiArgs := (api.resolve (api.Cache r) (api.Args r)).2 in
              match api.missing_loop (api.RequiredArgs a) apiArgs with
              | [] => [api.Call (api.Name a) apiArgs (api.Async a)]
              | _ :: _ => []
              end
          end
    end
  /\ (length (calls (api.Handle env r).1) <= 1)%nat.
Proof.
  unfold api.Handle, help_requested.
  destruct (api.Args r) as [|first rest] eqn:Hargs; simpl; [split; [done|lia]|].
  destruct (api.resolve (api.Cache r) (first :: rest)) as [apiName apiArgs].
  simpl. destruct (_ || _); simpl; [split; [done|lia]|].
  destruct (api.Cache r !! apiName) as [a|]; simpl; [|split; [done|lia]].
  rewrite calls_run. split; [done|].
  destruct (api.missing_loop _ _); simpl; lia.
Qed.

(** X11. What the handler returns.  It returns an error when no token was
    given, when the name resolves to nothing, and when the request fails
    with an error that does not end in [context canceled]; missing
    arguments and a cancelled request are not errors.  With [-h] it
    returns what the help command returns.  After a failed request it
    renders at most the response it got, unfiltered, and after a cancelled
    one nothing. *)
Theorem Handle_returns (env : api.Env) (r : api.Request) :
  let name := (api.resolve (api.Cache r) (api.Args r)).1 in
  let apiArgs := (api.resolve (api.Cache r) (api.Args r)).2 in
  match api.Args r with
  | [] => api.Handle env r = ([], Some "please provide an API to execute")
  | _ :: _ =>
      if help_requested (api.Args r) then
        (api.Handle env r).2 = api.helpError env (name :: drop 1 (api.Args r))
      else
        match api.Cache r !! name with
        | None =>
            api.Handle env r = ([], Some "unknown command or API requested")
        | Some a =>
            match api.missing_loop (api.RequiredArgs a) apiArgs with
            | _ :: _ => (api.Handle env r).2 = None
            | [] =>
                let call := api.Call (api.Name a) apiArgs (api.Async a) in
                match api.NewAPIRequest env (api.Name a) apiArgs (api.Async a) with
                | (_, None) => (api.Handle env r).2 = None
                | (response, Some err) =>
                    if strings.HasSuffix err "context canceled"
                    then api.Handle env r = ([call], None)
                    else api.Handle env r
                         = (call :: match response with
                                    | Some resp => [api.Rendered resp [] []]
                                    | None => []
                                    end, Some err)
                end
            end
        end
  end.
Proof.
  simpl. unfold api.Handle, help_requested.
  destruct (api.Args r) as [|first rest] eqn:Hargs; [done|].
  destruct (api.resolve (api.Cache r) (first :: rest)) as [apiName apiArgs].
  simpl. destruct (_ || _); simpl; [done|].
  destruct (api.Cache r !! apiName) as [a|]; simpl; [|done].
  unfold api.run.
  destruct (api.missing_loop (api.RequiredArgs a) apiArgs); simpl; [|done].
  destruct (api.NewAPIRequest env (api.Name a) apiArgs (api.Async a))
    as [[resp|] [err|]]; simpl.
  - by destruct (strings.HasSuffix err "context canceled").
  - by destruct (0 <? size resp)%nat.
  - by destruct (strings.HasSuffix err "context canceled").
  - done.
Qed.

(** ** White space *)

Lemma TrimLeft_head (s : string) :
  match strings.TrimLeft s with
  | "" => True
  | String c _ => strings.is_space c = false
  end.
Proof.
  induction s as [|c s IH]; simpl; [done|].
  destruct (strings.is_space c) eqn:Hc; [done|]. by simpl.
Qed.

Lemma TrimRight_cons (c : ascii) (s : string) :
  strings.TrimRight (String c s)
  = match strings.TrimRight s with
    | "" => if strings.is_space c then "" else String c ""
    | String d t => String c (String d t)
    end.
Proof. reflexivity. Qed.

Lemma TrimRight_idemp (s : string) :
  strings.TrimRight (strings.TrimRight s) = strings.TrimRight s.
Proof.
  induction s as [|c s IH]; simpl; [done|].
  destruct (strings.TrimRight s) as [|d t] eqn:Ht.
  - destruct (strings.is_space c) eqn:Hc; simpl; [done|]. by rewrite Hc.
  - by rewrite TrimRight_cons, IH.
Qed.

Lemma TrimRight_head (c : ascii) (s : string) :
  strings.is_space c = false ->
  exists t, strings.TrimRight (String c s) = String c t.
Proof.
  intros Hc. simpl. destruct (strings.TrimRight s); [|by eauto].
  rewrite Hc. by eauto.
Qed.

Lemma TrimSpace_idemp (s : string) :
  strings.TrimSpace (strings.TrimSpace s) = strings.TrimSpace s.
Proof.
  unfold strings.TrimSpace. pose proof (TrimLeft_head s) as Hhead.
  destruct (strings.TrimLeft s) as [|c u]; [done|].
  destruct (TrimRight_head c u Hhead) as [t Ht]. rewrite Ht.
  cbn [strings.TrimLeft]. rewrite Hhead, <- Ht. apply TrimRight_idemp.
Qed.

Lemma hint_keys_flat_map (key : string) (apiArgs : list string) :
  api.hint_keys key apiArgs
  = flat_map (fun arg => if strings.HasPrefix arg key then keys_of arg else [])
             apiArgs.
Proof.
  unfold api.hint_keys.
  enough (forall acc,
            foldl (fun keys arg =>
                     if strings.HasPrefix arg key then
                       foldl (fun keys k =>
                                if (0 <? String.length (strings.TrimSpace k))%nat
                                then keys ++ [strings.TrimSpace k] else keys)
                             keys
                             (strings.Split (nth 1 (strings.Split arg "=") "") ",")
                     else keys) acc apiArgs
            = acc ++ flat_map (fun arg => if strings.HasPrefix arg key
                                          then keys_of arg else []) apiArgs)
    as H by apply H.
  assert (forall pieces acc,
            foldl (fun keys k =>
                     if (0 <? String.length (strings.TrimSpace k))%nat
                     then keys ++ [strings.TrimSpace k] else keys) acc pieces
            = acc ++ List.filter (fun k => negb (String.eqb k ""))
                                 (map strings.TrimSpace pieces)) as Hinner.
  { induction pieces as [|k pieces IH]; intros acc; simpl.
    - by rewrite List.app_nil_r.
    - rewrite IH. destruct (strings.TrimSpace k); simpl; [done|].
      by rewrite <- List.app_assoc. }
  induction apiArgs as [|arg apiArgs IH]; intros acc; simpl.
  - by rewrite List.app_nil_r.
  - rewrite IH. destruct (strings.HasPrefix arg key); [|done].
    rewrite Hinner. unfold keys_of. by rewrite <- List.app_assoc.
Qed.

(** X12. The keys taken from the [filter=] and [exclude=] arguments are,
    argument by argument, the comma-separated pieces of the text between
    the first and the second [=], trimmed; every key is free of leading
    and trailing white space and none is empty. *)
Theorem hint_keys_trimmed (key : string) (apiArgs : list string) :
  api.hint_keys key apiArgs
  = flat_map (fun arg => if strings.HasPrefix arg key then keys_of arg else [])
             apiArgs
  /\ Forall (fun k => k <> "" /\ strings.TrimSpace k = k)
            (api.hint_keys key apiArgs).
Proof.
  split; [apply hint_keys_flat_map|]. rewrite hint_keys_flat_map.
  apply Forall_forall. intros k Hk. apply list_elem_of_In, in_flat_map in Hk.
  destruct Hk as (arg & _ & Hk). destruct (strings.HasPrefix arg key); [|done].
  unfold keys_of in Hk. apply filter_In in Hk as [Hk Hne].
  apply in_map_iff in Hk as (piece & <- & _). split.
  - intros Heq. rewrite Heq in Hne. done.
  - apply TrimSpace_idemp.
Qed.

(** X13. The handler starts the upload prompt only in a shell, only after
    a request that succeeded with a response that is not empty, and only
    as its last step, right after that response was rendered; it then
    returns no error. *)
Theorem prompt_only_after_success (env : api.Env) (r : api.Request) :
  existsb is_prompt (api.Handle env r).1 = true ->
  api.HasShell r = true
  /\ (api.Handle env r).2 = None
  /\ exists a apiArgs response,
       api.NewAPIRequest env (api.Name a) apiArgs (api.Async a)
       = (Some response, None)
       /\ (0 < size response)%nat
       /\ (api.Handle env r).1
          = [api.Call (api.Name a) apiArgs (api.Async a);
             api.Rendered response (api.hint_keys "filter=" apiArgs)
                          (api.hint_keys "exclude=" apiArgs);
             api.PromptForFileUpload (strings.ToLower (api.Name a)) response].
Proof.
  unfold api.Handle.
  destruct (api.Args r) as [|first rest]; [done|].
  destruct (api.resolve (api.Cache r) (first :: rest)) as [apiName apiArgs].
  destruct (existsb _ (first :: rest)); [done|].
  destruct (api.Cache r !! apiName) as [a|]; [|done].
  unfold api.run.
  destruct (0 <? length (api.missing_loop (api.RequiredArgs a) apiArgs))%nat;
    [done|].
  destruct (api.NewAPIRequest env (api.Name a) apiArgs (api.Async a))
    as [[resp|] [err|]] eqn:Hreq; simpl.
  - by destruct (strings.HasSuffix err "context canceled").
  - destruct (0 <? size resp)%nat eqn:Hsize; simpl; [|done].
    unfold api.upload_follow_up.
    destruct (api.HasShell r); simpl; [|done].
    destruct (_ || _); simpl; [|done].
    intros _. split; [done|]. split; [done|].
    exists a, apiArgs, resp. rewrite Hreq. apply Nat.ltb_lt in Hsize. done.
  - by destruct (strings.HasSuffix err "context canceled").
  - done.
Qed.

Lemma prompt_only_after_success_witness :
  api.HasShell iso_request = true
  /\ (api.Handle template_env iso_request).2 = None
  /\ exists a apiArgs response,
       api.NewAPIRequest template_env (api.Name a) apiArgs (api.Async a)
       = (Some response, None)
       /\ (0 < size response)%nat
       /\ (api.Handle template_env iso_request).1
          = [api.Call (api.Name a) apiArgs (api.Async a);
             api.Rendered response (api.hint_keys "filter=" apiArgs)
                          (api.hint_keys "exclude=" apiArgs);
             api.PromptForFileUpload (strings.ToLower (api.Name a)) response].
Proof. apply (prompt_only_after_success template_env iso_request). reflexivity. Defined.

(** ** The [switch] handler *)

Lemma trim_left_byte_head (s : string) (c : ascii) :
  match strings.trim_left_byte s c with
  | "" => True
  | String b _ => Ascii.eqb b c = false
  end.
Proof.
  induction s as [|b s IH]; simpl; [done|].
  destruct (Ascii.eqb b c) eqn:Hb; [done|]. by simpl.
Qed.

Lemma trim_right_byte_cons (b c : ascii) (s : string) :
  strings.trim_right_byte (String b s) c
  = match strings.trim_right_byte s c with
    | "" => if Ascii.eqb b c then "" else String b ""
    | String d t => String b (String d t)
    end.
Proof. reflexivity. Qed.

Lemma trim_right_byte_idemp (s : string) (c : ascii) :
  strings.trim_right_byte (strings.trim_right_byte s c) c
  = strings.trim_right_byte s c.
Proof.
  induction s as [|b s IH]; [done|]. rewrite trim_right_byte_cons.
  destruct (strings.trim_right_byte s c) as [|d t] eqn:Ht.
  - destruct (Ascii.eqb b c) eqn:Hb; [done|]. simpl. by rewrite Hb.
  - by rewrite trim_right_byte_cons, IH.
Qed.

Lemma Trim_trimmed (s : string) (c : ascii) :
  strings.trim_left_byte (strings.Trim s c) c = strings.Trim s c
  /\ strings.trim_right_byte (strings.Trim s c) c = strings.Trim s c.
Proof.
  unfold strings.Trim. split; [|apply trim_right_byte_idemp].
  pose proof (trim_left_byte_head s c) as Hhead.
  destruct (strings.trim_left_byte s c) as [|b u]; [done|].
  rewrite trim_right_byte_cons.
  destruct (strings.trim_right_byte u c); rewrite ?Hhead; simpl; by rewrite Hhead.
Qed.

(** X14. The [switch] handler asks for a profile at most once, and only
    when the first token is [profile], the last token is not [-h] and the
    value is not rejected; it loads without updating, and the name it
    loads is the remaining tokens joined by blanks with the blanks at both
    ends removed. *)
Theorem switch_loads (env : switch.Env) (r : switch.Request) :
  loads (switch.Handle env r).1
  = (if negb (length (switch.Args r) <? 1)%nat
        && negb (asks_usage r) && negb (rejected env r)
        && String.eqb (hd "" (switch.Args r)) "profile"
     then [switch.ProfileLoad (switch_value r) false] else [])
  /\ strings.trim_left_byte (switch_value r) " " = switch_value r
  /\ strings.trim_right_byte (switch_value r) " " = switch_value r.
Proof.
  split; [|apply Trim_trimmed].
  unfold switch.Handle, asks_usage, rejected, switch_value.
  destruct (length (switch.Args r) <? 1)%nat; [done|].
  destruct (String.eqb (List.last (switch.Args r) "") "-h"); [done|].
  cbn [negb andb].
  destruct (negb _ && negb _); [done|]. cbn [negb andb].
  destruct (String.eqb (hd "" (switch.Args r)) "profile"); [|done].
  unfold switch.switch_profile.
  destruct (switch.LoadProfile env _ false), (switch.HasShell r); done.
Qed.


(** ** The three revisions of the upload flow *)







Lemma validate_fields (env : fileupload.Env) (filePaths : string)
  (w : fileupload.World) :
  let paths := candidate_paths filePaths in
  fileupload.validate_loop env
    (strings.FieldsFunc filePaths (fun r => Ascii.eqb r ",")) [] [] w
  = (List.filter (IsNotExist env) paths,
     List.filter (fun p => negb (IsNotExist env p)) paths,
     after w (map fileupload.Stat paths)).
Proof.
  simpl. unfold candidate_paths.
  by rewrite validate_loop_spec, FieldsFunc_Split, trimmed_fields.
Qed.

Lemma all_exist_filter (env : fileupload.Env) (paths : list string) :
  forallb (fun p => negb (IsNotExist env p)) paths
  = (length (List.filter (IsNotExist env) paths) =? 0)%nat
  /\ (List.filter (IsNotExist env) paths = [] ->
      List.filter (fun p => negb (IsNotExist env p)) paths = paths).
Proof.
  induction paths as [|p paths [IH1 IH2]]; [done|]. simpl.
  destruct (IsNotExist env p); simpl; [done|].
  split; [done|]. intros H. by rewrite IH2.
Qed.

Lemma credentials_cases (response : gmap string iface) :
  match response !! "getuploadparams" with
  | Some (IMap params) =>
      match List.find (fun key => negb (fileupload.has_key params key))
                      fileupload.requiredKeys with
      | None => credentials response = Some params
      | Some _ => credentials response = None
      end
  | _ => credentials response = None
  end.
Proof.
  unfold credentials.
  destruct (response !! "getuploadparams") as [[| | | | |params]|]; try done.
  destruct (List.find _ fileupload.requiredKeys) eqn:Hfind.
  - destruct (forallb _ _) eqn:Hkeys; [|done].
    apply find_missing_key in Hkeys. congruence.
  - apply find_missing_key in Hfind. by rewrite Hfind.
Qed.




(** ** Letter case in the resolver *)

Lemma ToLower_app (s t : string) :
  strings.ToLower (s +:+ t) = strings.ToLower s +:+ strings.ToLower t.
Proof.
  induction s as [|c s IH]; [done|]. rewrite str_app_cons. simpl.
  by rewrite IH, str_app_cons.
Qed.

(** X17. The name the resolver finds does not depend on the letter case
    of the first two tokens: for token lists whose first two tokens agree up
    to case and whose other tokens are the same, the resolved names are
    equal and as many tokens are consumed; the arguments left over keep the
    case they were typed in. *)
Theorem resolve_ignores_case (cache : gmap string api.API)
  (first first' second second' : string) (rest : list string) :
  strings.ToLower first = strings.ToLower first' ->
  strings.ToLower second = strings.ToLower second' ->
  let r := api.resolve cache (first :: second :: rest) in
  let r' := api.resolve cache (first' :: second' :: rest) in
  r.1 = r'.1
  /\ (r.2 = rest /\ r'.2 = rest
      \/ r.2 = second :: rest /\ r'.2 = second' :: rest)
  /\ api.resolve cache [first] = api.resolve cache [first'].
Proof.
  intros Hfirst Hsecond. unfold api.resolve. simpl hd. simpl length.
  cbn [take drop]. rewrite !Join_two, !ToLower_app, Hfirst, Hsecond.
  destruct (cache !! strings.ToLower first'); simpl; [by auto|].
  split; [done|]. split; [by left|]. done.
Qed.

Lemma resolve_ignores_case_witness :
  (api.resolve users_cache ["LIST"; "users"; "account=admin"]).1
  = (api.resolve users_cache ["list"; "Users"; "account=admin"]).1.
Proof.
  apply (resolve_ignores_case users_cache "LIST" "list" "users" "Users");
    reflexivity.
Defined.

(** ** The bar never moves backwards *)

Lemma barArrow_clamp (q : Z) :
  fileupload.barArrow q = fileupload.barArrow (Z.max 0 (Z.min 100 q)).
Proof.
  unfold fileupload.barArrow.
  destruct (Z.ltb_spec q 0), (Z.ltb_spec (Z.max 0 (Z.min 100 q)) 0); try lia.
  - destruct (Z.gtb_spec 0 100); [lia|].
    destruct (Z.gtb_spec (Z.max 0 (Z.min 100 q)) 100); [lia|].
    by replace (Z.max 0 (Z.min 100 q)) with 0 by lia.
  - destruct (Z.gtb_spec q 100), (Z.gtb_spec (Z.max 0 (Z.min 100 q)) 100); try lia.
    + by replace (Z.max 0 (Z.min 100 q)) with 100 by lia.
    + by replace (Z.max 0 (Z.min 100 q)) with q by lia.
Qed.

Lemma completed_app (s t : string) :
  completed (s +:+ t) = (completed s + completed t)%nat.
Proof.
  induction s as [|c s IH]; [done|]. rewrite str_app_cons. simpl.
  rewrite IH. lia.
Qed.

Lemma completed_replicate (c : ascii) (n : nat) :
  completed (strings.replicate_byte c n)
  = if Ascii.eqb c "=" then n else 0%nat.
Proof.
  induction n as [|n IH]; simpl; [by destruct (Ascii.eqb c "=")|].
  rewrite IH. by destruct (Ascii.eqb c "=").
Qed.

Lemma completed_bar (p : Z) :
  completed ("[" +:+ bar_as_specified p +:+ "]") = Z.to_nat (p * 24 / 100).
Proof.
  unfold bar_as_specified. rewrite !completed_app, completed_replicate.
  destruct (_ <? 24)%nat.
  - rewrite completed_app, completed_replicate. simpl. lia.
  - simpl. lia.
Qed.

(** X18. The bar never moves backwards: for percentages [p <= q], in or
    out of range, both bars are rendered and the bar for [q] shows at least
    as many completed cells as the bar for [p]. *)
Theorem barArrow_monotone (p q : Z) :
  p <= q ->
  exists bp bq,
    fileupload.barArrow p = Some bp
    /\ fileupload.barArrow q = Some bq
    /\ (completed bp <= completed bq)%nat.
Proof.
  intros Hpq. rewrite (barArrow_clamp p), (barArrow_clamp q).
  rewrite !barArrow_clamped by lia. eexists _, _.
  split; [done|]. split; [done|]. rewrite !completed_bar.
  apply Z2Nat.inj_le.
  - apply Z.div_pos; lia.
  - apply Z.div_pos; lia.
  - apply Z.div_le_mono; lia.
Qed.

Lemma barArrow_monotone_witness :
  exists bp bq,
    fileupload.barArrow 37 = Some bp
    /\ fileupload.barArrow 38 = Some bq
    /\ (completed bp <= completed bq)%nat.
Proof. apply (barArrow_monotone 37 38). lia. Defined.

(** ** No flow leaks a spinner *)

Lemma left_as_found_refl (c : config.Config) : left_as_found c c.
Proof. repeat split. apply firstn_all. Qed.

(** The spinner of a batch, started last and stopped at the end. *)
Lemma batch_spinner_released (c : config.Config) (st : list config.Spinner)
  (new : config.Spinner) :
  well_formed c = true ->
  (forall j, j <> length (config.store c) ->
     st !! j = (config.store c ++ [new]) !! j) ->
  left_as_found c
    (config.mkConfig (config.HasShell c)
       (config.Stop (length (config.store c)) st)
       (config.remove_first (Some (length (config.store c)))
          (config.activeSpinners c ++ [Some (length (config.store c))]))).
Proof.
  intros Hwf Hother. unfold left_as_found. simpl.
  rewrite remove_first_fresh by done. split; [done|]. split; [done|].
  apply list_eq. intros i.
  destruct (decide (i < length (config.store c))%nat) as [Hi|Hi].
  - rewrite lookup_take_lt by done. rewrite lookup_Stop.
    rewrite Hother, lookup_app_l, bool_decide_false by lia.
    destruct (_ !! i) as [[sf a]|]; simpl; [by rewrite andb_true_r|done].
  - rewrite lookup_take_ge by lia. symmetry. apply lookup_ge_None. lia.
Qed.

Lemma UploadFiles_left_as_found (env : fileupload.Env) (api : string)
  (response : gmap string iface) (files : list string) (w : fileupload.World) :
  config.HasShell (fileupload.cfg w) = true ->
  well_formed (fileupload.cfg w) = true ->
  left_as_found (fileupload.cfg w)
    (fileupload.cfg (world_of (fileupload.UploadFiles env api response files w))).
Proof.
  intros Hshell Hwf.
  destruct (credentials response) as [params|] eqn:Hcred.
  - destruct (UploadFiles_interactive env api response params files w Hshell Hcred)
      as (st & -> & _ & Hother). simpl.
    rewrite <- Hshell at 1. by eapply batch_spinner_released.
  - pose proof (UploadFiles_rejects env api response files w) as Hrej.
    pose proof (credentials_cases response) as Hcases.
    destruct (response !! "getuploadparams") as [[| | | | |params']|];
      try (rewrite Hrej; apply left_as_found_refl).
    destruct (List.find (fun key => negb (fileupload.has_key params' key))
                        fileupload.requiredKeys); [|congruence].
    rewrite Hrej. apply left_as_found_refl.
Qed.

Lemma upload_loop_store_v0 (net : fileupload.answers)
  (postURL signature expires metadata : string) (spn count : nat)
  (files : list string) :
  forall (i errored : nat) (w : fileupload.World),
  let w' := (fileupload_v0.upload_loop net postURL signature expires metadata
               spn count i files errored w).2 in
  config.HasShell (fileupload.cfg w') = config.HasShell (fileupload.cfg w)
  /\ config.activeSpinners (fileupload.cfg w')
     = config.activeSpinners (fileupload.cfg w)
  /\ forall j, j <> spn ->
       config.store (fileupload.cfg w') !! j
       = config.store (fileupload.cfg w) !! j.
Proof.
  induction files as [|filePath rest IH]; intros i errored [c tr]; [done|].
  cbn [fileupload_v0.upload_loop]. unfold fileupload_v0.uploadFile.
  assert (forall w0 errored0,
            config.HasShell (fileupload.cfg w0) = config.HasShell c ->
            config.activeSpinners (fileupload.cfg w0) = config.activeSpinners c ->
            (forall j, j <> spn ->
               config.store (fileupload.cfg w0) !! j = config.store c !! j) ->
            let w' := (fileupload_v0.upload_loop net postURL signature expires
                         metadata spn count (S i) rest errored0 w0).2 in
            config.HasShell (fileupload.cfg w') = config.HasShell c
            /\ config.activeSpinners (fileupload.cfg w') = config.activeSpinners c
            /\ forall j, j <> spn ->
                 config.store (fileupload.cfg w') !! j = config.store c !! j)
    as Hstep.
  { intros w0 errored0 H1 H2 H4. simpl.
    destruct (IH (S i) errored0 w0) as (G1 & G2 & G4).
    split; [congruence|]. split; [congruence|].
    intros j Hj. rewrite G4 by done. by apply H4. }
  destruct (net i postURL filePath signature expires metadata)
    as [err|err|code body];
    [| |destruct (negb (code =? 200) && negb (code =? 201))];
    apply Hstep; simpl;
    unfold config.Stop, config.Start, config.setSuffix; try done;
    intros j Hj; by rewrite ?list_lookup_alter_ne by done.
Qed.

Lemma upload_loop_cfg_api (net : fileupload.answers)
  (postURL signature expires metadata : string) (files : list string) :
  forall (i : nat) (w : fileupload.World),
  fileupload.cfg
    (api.upload_loop net postURL signature expires metadata i files w)
  = fileupload.cfg w.
Proof.
  induction files as [|filePath rest IH]; intros i w; [done|].
  cbn [api.upload_loop]. unfold api.uploadFile.
  destruct (net i postURL filePath signature expires metadata)
    as [err|err|code body];
    [| |destruct (negb (code =? 200) && negb (code =? 201))];
    by rewrite IH.
Qed.

(** X19. None of the three upload flows leaks a spinner or touches a
    spinner of somebody else: whichever way a flow ends, and whatever
    happens to the calls of its batch, a well-formed controller has the
    active set and the shell flag it had before, and every spinner that
    existed is in the state it was in. *)
Theorem flows_release_spinner (env : fileupload.Env)
  (net_first net_inline : fileupload.answers) (api : string)
  (response : gmap string iface) (w : fileupload.World) :
  well_formed (fileupload.cfg w) = true ->
  left_as_found (fileupload.cfg w)
    (fileupload.cfg
       (world_of (fileupload.PromptAndUploadFilesIfNeeded env api response w)))
  /\ left_as_found (fileupload.cfg w)
       (fileupload.cfg
          (world_of (fileupload_v0.PromptAndUploadFileIfNeeded env net_first api
                       response w)))
  /\ left_as_found (fileupload.cfg w)
       (fileupload.cfg
          (world_of (api.promptForFileUpload env net_inline api response w))).
Proof.
  intros Hwf.
  set (paths := candidate_paths (fmt.Scanln (fileupload.typed env))).
  destruct (all_exist_filter env paths) as [_ Hvalid].
  split; [|split].
  - unfold fileupload.PromptAndUploadFilesIfNeeded.
    destruct (config.HasShell (fileupload.cfg w)) eqn:Hshell;
      [|apply left_as_found_refl].
    destruct (fileupload.IsFileUploadAPI env (strings.ToLower api));
      [|apply left_as_found_refl].
    cbn [negb]. case_bool_decide; [apply left_as_found_refl|].
    rewrite ValidateAndGetFileList_eq. fold paths.
    destruct (List.filter (IsNotExist env) paths);
      [|apply left_as_found_refl].
    destruct (length paths =? 0)%nat; [apply left_as_found_refl|].
    by apply (UploadFiles_left_as_found env api response paths
                (after (fileupload.emit prompt_line w)
                       (map fileupload.Stat paths))).
  - unfold fileupload_v0.PromptAndUploadFileIfNeeded.
    destruct (fileupload_v0.reaches_prompt _ api) eqn:Hguard;
      [|apply left_as_found_refl].
    assert (config.HasShell (fileupload.cfg w) = true) as Hshell.
    { unfold fileupload_v0.reaches_prompt in Hguard.
      by destruct (config.HasShell (fileupload.cfg w)). }
    cbn [negb]. rewrite validate_fields. fold paths.
    destruct (List.filter (IsNotExist env) paths) as [|m ms] eqn:Hmiss;
      [|apply left_as_found_refl].
    rewrite Hvalid by done. cbn [length Nat.ltb Nat.leb].
    destruct (length paths =? 0)%nat; [apply left_as_found_refl|].
    destruct (response !! "getuploadparams") as [[| | | | |params]|];
      try apply left_as_found_refl.
    cbn [reflect.TypeOf].
    destruct (List.find (fun key => negb (fileupload.has_key params key))
                        fileupload.requiredKeys); [apply left_as_found_refl|].
    unfold config.StartSpinner, after.
    cbn [fileupload.emit fileupload.cfg fileupload.trace].
    rewrite Hshell. cbn [negb]. cbv iota.
    match goal with
    | |- context [fileupload_v0.upload_loop ?e ?a ?b ?c ?d ?s ?n 0 ?fs 0 ?w0] =>
        pose proof (upload_loop_store_v0 e a b c d s n fs 0 0 w0) as Hstore;
        destruct (fileupload_v0.upload_loop e a b c d s n 0 fs 0 w0)
          as [errored w1]
    end.
    cbn [snd fileupload.cfg config.HasShell config.activeSpinners config.store]
      in Hstore.
    destruct Hstore as (H1 & H2 & H3).
    unfold fileupload.finish, fileupload.emit.
    destruct (0 <? errored)%nat; cbn [world_of fileupload.cfg];
      unfold config.StopSpinner; rewrite H1, H2, <- Hshell;
      (eapply batch_spinner_released; [done|exact H3]).
  - unfold api.promptForFileUpload.
    rewrite validate_fields. fold paths.
    destruct (List.filter (IsNotExist env) paths) as [|m ms] eqn:Hmiss;
      [|apply left_as_found_refl].
    rewrite Hvalid by done. cbn [length Nat.ltb Nat.leb].
    destruct (length paths =? 0)%nat; [apply left_as_found_refl|].
    destruct (response !! "getuploadparams") as [[| | | | |params]|];
      try apply left_as_found_refl.
    cbn [reflect.TypeOf].
    destruct (List.find (fun key => negb (fileupload.has_key params key))
                        fileupload.requiredKeys); [apply left_as_found_refl|].
    unfold config.StartSpinner, after.
    cbn [fileupload.emit fileupload.cfg fileupload.trace].
    destruct (config.HasShell (fileupload.cfg w)) eqn:Hshell; cbn [negb]; cbv iota;
      cbn [world_of fileupload.cfg]; rewrite upload_loop_cfg_api;
      cbn [fileupload.cfg config.StopSpinner];
      [|apply left_as_found_refl].
    cbn [config.HasShell config.store config.activeSpinners].
    rewrite <- Hshell. eapply batch_spinner_released; [done|]. by intros.
Qed.

Lemma flows_release_spinner_witness :
  left_as_found (fileupload.cfg busy_world)
    (fileupload.cfg
       (world_of (fileupload.PromptAndUploadFilesIfNeeded two_files_typed
                    "getUploadParamsForIso" upload_response busy_world)))
  /\ left_as_found (fileupload.cfg busy_world)
       (fileupload.cfg
          (world_of (fileupload_v0.PromptAndUploadFileIfNeeded two_files_typed
                       second_refused "getUploadParamsForIso" upload_response
                       busy_world)))
  /\ left_as_found (fileupload.cfg busy_world)
       (fileupload.cfg
          (world_of (api.promptForFileUpload two_files_typed second_refused
                       "getUploadParamsForIso" upload_response busy_world))).
Proof.
  apply (flows_release_spinner two_files_typed second_refused second_refused
           "getUploadParamsForIso" upload_response busy_world).
  reflexivity.
Defined.
